(** * ROMnibus: hashing, signature parsing, de-duplication and catalogue lookup

    A shallow embedding of the Go sources of ROMnibus:
    - [utils.CalculateFileHash] / [calculateZipHash] (SHA-1 fingerprint of a
      file or of the first entry of a zip archive),
    - the two DAT importers ([parseFilename], [parseDAT]),
    - the JSON importer ([ProcessFile], [Deduplicate], [MergeAndDeduplicate]),
    - the catalogue lookups of [utils/db.go] ([FindByHash], [FindByFilename]).

    Go strings and byte slices are byte sequences; they are modelled by
    [string] (a list of 8-bit [ascii] characters).  A Go [(T, error)] result
    is modelled by [result T], the error being carried by its message. *)

From Stdlib Require Import ZArith String Ascii List Bool Lia.
From stdpp Require Import base tactics option list gmap strings.
Import ListNotations.

Local Open Scope Z_scope.

(** ** Results *)

Inductive result (A : Type) : Type :=
| Ok (a : A)
| Err (msg : string).
Arguments Ok {A} a.
Arguments Err {A} msg.

Definition is_Ok {A} (r : result A) : bool :=
  match r with Ok _ => true | Err _ => false end.

(** ** The part of the Go runtime the sources rely on without fixing it

    - [strings.ToLower] maps a string that is not pure ASCII through the
      Unicode case tables ([strings.Map(unicode.ToLower, s)]); the tables are
      not reproduced, that branch is the field [unicode_ToLower_Map];
    - [for k := range m] visits the keys of a map in an order the language
      leaves unspecified; [map_range] is that order for a set of string keys,
      known only to enumerate every key once. *)

Class GoRuntime := {
  unicode_ToLower_Map : string → string;
  map_range : gset string → list string;
  map_range_perm : ∀ m, map_range m ≡ₚ elements m
}.

(** ** Bytes and strings *)

Module Str.

Definition code (c : ascii) : Z := Z.of_N (N_of_ascii c).
Definition chr (z : Z) : ascii := ascii_of_N (Z.to_N z).

Fixpoint all (p : ascii → bool) (s : string) : bool :=
  match s with
  | EmptyString => true
  | String c t => p c && all p t
  end.

Fixpoint map (f : ascii → ascii) (s : string) : string :=
  match s with
  | EmptyString => EmptyString
  | String c t => String (f c) (map f t)
  end.

Fixpoint concat (l : list string) : string :=
  match l with
  | [] => EmptyString
  | s :: r => s +:+ concat r
  end.

Definition in_range (lo hi : ascii) (c : ascii) : bool :=
  (code lo <=? code c) && (code c <=? code hi).

(** [s[:n]] and [s[n:]] for [0 <= n <= len(s)]. *)
Fixpoint take (n : nat) (s : string) : string :=
  match n, s with
  | S k, String c t => String c (take k t)
  | _, _ => EmptyString
  end.

Fixpoint drop (n : nat) (s : string) : string :=
  match n, s with
  | S k, String _ t => drop k t
  | _, _ => s
  end.

End Str.

(** *** Package [strings] *)

Definition is_ascii (c : ascii) : bool := Str.code c <? 128.

Definition lower_ascii (c : ascii) : ascii :=
  if Str.in_range "A" "Z" c then Str.chr (Str.code c + 32) else c.

(** [strings.ToLower]: the ASCII fast path, and [strings.Map] otherwise. *)
Definition strings_ToLower `{GoRuntime} (s : string) : string :=
  if Str.all is_ascii s then Str.map lower_ascii s
  else unicode_ToLower_Map s.

Fixpoint strings_HasPrefix (s pre : string) {struct pre} : bool :=
  match pre, s with
  | EmptyString, _ => true
  | String a pre', String b s' => Ascii.eqb b a && strings_HasPrefix s' pre'
  | String _ _, EmptyString => false
  end.

Definition strings_HasSuffix (s suf : string) : bool :=
  (String.length suf <=? String.length s)%nat
  && String.eqb (Str.drop (String.length s - String.length suf) s) suf.

Definition strings_TrimSuffix (s suf : string) : string :=
  if strings_HasSuffix s suf
  then Str.take (String.length s - String.length suf) s
  else s.

(** [strings.Index(s, c)] for a one-byte separator: the first index of [c],
    or [-1]. *)
Fixpoint strings_IndexByte (s : string) (c : ascii) : Z :=
  match s with
  | EmptyString => -1
  | String a t =>
      if Ascii.eqb a c then 0
      else let r := strings_IndexByte t c in
           if r =? -1 then -1 else r + 1
  end.

(** *** [strings.TrimSpace]

    Leading and trailing white-space runes are removed
    ([TrimFunc(s, unicode.IsSpace)], with a fast path for ASCII).  The
    white-space runes are the six ASCII ones, U+0085 and U+00A0 (two bytes
    in UTF-8), and U+1680, U+2000..U+200A, U+2028, U+2029, U+202F, U+205F,
    U+3000 (three bytes).  A byte sequence that is not the encoding of one
    of them decodes to another rune or to [RuneError], which is no space. *)

Definition asciiSpace (c : ascii) : bool :=
  let n := Str.code c in
  (n =? 9) || (n =? 10) || (n =? 11) || (n =? 12) || (n =? 13) || (n =? 32).

Definition space2 (c1 c2 : ascii) : bool :=
  (Str.code c1 =? 194) && ((Str.code c2 =? 133) || (Str.code c2 =? 160)).

Definition space3 (c1 c2 c3 : ascii) : bool :=
  let '(a, b, c) := (Str.code c1, Str.code c2, Str.code c3) in
  ((a =? 225) && (b =? 154) && (c =? 128))
  || ((a =? 226) && (b =? 128)
      && (((128 <=? c) && (c <=? 138)) || (c =? 168) || (c =? 169) || (c =? 175)))
  || ((a =? 226) && (b =? 129) && (c =? 159))
  || ((a =? 227) && (b =? 128) && (c =? 128)).

Fixpoint TrimLeftSpace (s : string) : string :=
  match s with
  | String c1 t1 =>
      if asciiSpace c1 then TrimLeftSpace t1
      else match t1 with
           | String c2 t2 =>
               if space2 c1 c2 then TrimLeftSpace t2
               else match t2 with
                    | String c3 t3 =>
                        if space3 c1 c2 c3 then TrimLeftSpace t3 else s
                    | EmptyString => s
                    end
           | EmptyString => s
           end
  | EmptyString => EmptyString
  end.

(** The scan from the end, on the reversed string: the last rune is read
    backwards. *)
Fixpoint TrimRightSpace_rev (r : string) : string :=
  match r with
  | String c1 t1 =>
      if asciiSpace c1 then TrimRightSpace_rev t1
      else match t1 with
           | String c2 t2 =>
               if space2 c2 c1 then TrimRightSpace_rev t2
               else match t2 with
                    | String c3 t3 =>
                        if space3 c3 c2 c1 then TrimRightSpace_rev t3 else r
                    | EmptyString => r
                    end
           | EmptyString => r
           end
  | EmptyString => EmptyString
  end.

Definition TrimRightSpace (s : string) : string :=
  String.rev (TrimRightSpace_rev (String.rev s)).

Definition strings_TrimSpace (s : string) : string :=
  TrimRightSpace (TrimLeftSpace s).

(** *** [filepath.Ext] (Unix path separator)

    The path is scanned from its end: the extension starts at the last dot
    of the last path element. *)
Fixpoint Ext_scan (rpath acc : string) : string :=
  match rpath with
  | EmptyString => EmptyString
  | String c r =>
      if Ascii.eqb c "/" then EmptyString
      else if Ascii.eqb c "." then String c acc
      else Ext_scan r (String c acc)
  end.

Definition filepath_Ext (path : string) : string :=
  Ext_scan (String.rev path) EmptyString.

(** ** Package [crypto/sha1] and the [%x] verb

    SHA-1 (FIPS 180-1) on 32-bit words carried by [Z], every addition and
    rotation reduced modulo [2^32]. *)

Module SHA1.

Definition u32 (x : Z) : Z := x mod 2 ^ 32.
Definition add32 (x y : Z) : Z := u32 (x + y).
Definition rotl (n x : Z) : Z :=
  u32 (Z.lor (Z.shiftl x n) (Z.shiftr x (32 - n))).
Definition not32 (x : Z) : Z := Z.lxor x 0xFFFFFFFF.

Definition init : list Z :=
  [0x67452301; 0xEFCDAB89; 0x98BADCFE; 0x10325476; 0xC3D2E1F0].

(** Padding: a [0x80] byte, zero bytes up to 56 modulo 64, and the length
    of the message in bits as a 64-bit big-endian integer. *)
Definition be_bytes (n : nat) (x : Z) : list Z :=
  List.map (fun i => Z.shiftr x (8 * Z.of_nat i) mod 256) (rev (seq 0 n)).

Definition pad (msg : list Z) : list Z :=
  let len := Z.of_nat (length msg) in
  let t := if len mod 64 <? 56 then 56 - len mod 64 else 64 + 56 - len mod 64 in
  msg ++ 0x80 :: repeat 0 (Z.to_nat (t - 1))
      ++ be_bytes 8 ((len * 8) mod 2 ^ 64).

Fixpoint be_words (n : nat) (p : list Z) : list Z :=
  match n, p with
  | S k, b0 :: b1 :: b2 :: b3 :: r =>
      Z.lor (Z.lor (Z.lor (Z.shiftl b0 24) (Z.shiftl b1 16)) (Z.shiftl b2 8)) b3
      :: be_words k r
  | _, _ => []
  end.

(** The message schedule: 16 words of the block extended to 80. *)
Definition schedule (w16 : list Z) : list Z :=
  fold_left
    (fun w i =>
       let x j := nth (i - j) w 0 in
       w ++ [rotl 1 (Z.lxor (Z.lxor (Z.lxor (x 3%nat) (x 8%nat)) (x 14%nat)) (x 16%nat))])
    (seq 16 64) w16.

Definition round (w : list Z) (st : Z * Z * Z * Z * Z) (i : nat)
  : Z * Z * Z * Z * Z :=
  let '(a, b, c, d, e) := st in
  let '(f, k) :=
    if (i <? 20)%nat then (Z.lor (Z.land b c) (Z.land (not32 b) d), 0x5A827999)
    else if (i <? 40)%nat then (Z.lxor (Z.lxor b c) d, 0x6ED9EBA1)
    else if (i <? 60)%nat then (Z.lor (Z.land (Z.lor b c) d) (Z.land b c), 0x8F1BBCDC)
    else (Z.lxor (Z.lxor b c) d, 0xCA62C1D6) in
  let t := add32 (add32 (add32 (add32 (rotl 5 a) f) e) (nth i w 0)) k in
  (t, a, rotl 30 b, c, d).

Definition block (h : list Z) (p : list Z) : list Z :=
  match h with
  | [h0; h1; h2; h3; h4] =>
      let w := schedule (be_words 16 p) in
      let '(a, b, c, d, e) := fold_left (round w) (seq 0 80) (h0, h1, h2, h3, h4) in
      [add32 h0 a; add32 h1 b; add32 h2 c; add32 h3 d; add32 h4 e]
  | _ => h
  end.

Fixpoint blocks (n : nat) (h : list Z) (p : list Z) : list Z :=
  match n with
  | O => h
  | S k => blocks k (block h (firstn 64 p)) (skipn 64 p)
  end.

Definition bytes_of_string (s : string) : list Z :=
  List.map Str.code (list_ascii_of_string s).

(** [h := sha1.New(); h.Write(data); h.Sum(nil)]: the 20 digest bytes. *)
Definition Sum (data : string) : list Z :=
  let p := pad (bytes_of_string data) in
  concat (List.map (be_bytes 4) (blocks (length p / 64) init p)).

End SHA1.

(** [fmt.Sprintf("%x", b)] on a byte slice: two lowercase hexadecimal digits
    per byte. *)
Definition hex_digit (n : Z) : ascii :=
  if n <? 10 then Str.chr (48 + n) else Str.chr (87 + n).

Fixpoint Sprintf_x (b : list Z) : string :=
  match b with
  | [] => EmptyString
  | x :: r => String (hex_digit (x / 16)) (String (hex_digit (x mod 16)) (Sprintf_x r))
  end.

(** ** The files the programs read

    [os.Open] and [zip.OpenReader] either fail or give access to content.
    An [io.Reader] is modelled by the bytes it delivers and by the error, if
    any, that ends the stream in place of [io.EOF]. *)

Record Reader := {
  rd_data : string;
  rd_err : option string
}.

Record zip_File := {
  zf_Name : string;
  zf_Open : result Reader
}.

Record FileSystem := {
  os_Open : string → result Reader;
  zip_OpenReader : string → result (list zip_File)
}.

(** [io.Copy(dst, src)] into a writer that never fails: everything [src]
    delivers, unless the stream breaks. *)
Definition io_Copy (src : Reader) : result string :=
  match rd_err src with
  | None => Ok (rd_data src)
  | Some e => Err e
  end.

Definition os_ReadFile (fs : FileSystem) (name : string) : result string :=
  match os_Open fs name with
  | Err e => Err e
  | Ok f => io_Copy f
  end.

(** ** HashEngine: [utils.CalculateFileHash] *)

Definition calculateZipHash (fs : FileSystem) (filename : string) : result string :=
  match zip_OpenReader fs filename with
  | Err e => Err ("failed to open zip file " +:+ filename +:+ ": " +:+ e)
  | Ok zipReader_File =>
      match zipReader_File with
      | [] => Err ("zip file " +:+ filename +:+ " is empty")
      | zipFile :: _ =>
          match zf_Open zipFile with
          | Err e =>
              Err ("failed to open file " +:+ zf_Name zipFile +:+ " within zip: " +:+ e)
          | Ok fileReader =>
              match io_Copy fileReader with
              | Err e =>
                  Err ("failed to calculate hash for " +:+ zf_Name zipFile
                       +:+ " within zip: " +:+ e)
              | Ok written => Ok (Sprintf_x (SHA1.Sum written))
              end
          end
      end
  end.

Definition CalculateFileHash `{GoRuntime} (fs : FileSystem) (filename : string)
  : result string :=
  if String.eqb (strings_ToLower (filepath_Ext filename)) ".zip"
  then calculateZipHash fs filename
  else
    match os_Open fs filename with
    | Err e => Err ("failed to open file " +:+ filename +:+ ": " +:+ e)
    | Ok file =>
        match io_Copy file with
        | Err e => Err ("failed to calculate hash for " +:+ filename +:+ ": " +:+ e)
        | Ok written => Ok (Sprintf_x (SHA1.Sum written))
        end
    end.

(** ** Package [regexp], for the patterns of the DAT importers

    Both patterns are a sequence of repeated character classes, some of
    them captured.  [run] is the backtracking search whose first success
    Go's [regexp] returns (leftmost-first matching): a greedy repetition
    tries the longest run first, a lazy one the shortest.  Every class of
    the patterns is a set of ASCII characters or the complement of one, so
    matching byte by byte agrees with matching rune by rune. *)

Module Regexp.

Record piece := {
  cls : ascii → bool;      (* the character class *)
  lo : nat;                (* repetitions required *)
  extra : option nat;      (* further repetitions allowed; [None]: any *)
  lazy : bool;             (* [*?] rather than [*] *)
  cap : bool               (* the piece is a capture group *)
}.

Definition push (c : ascii) (r : option (list string)) : option (list string) :=
  match r with
  | Some (seg :: segs) => Some (String c seg :: segs)
  | _ => None
  end.

Definition may_extend (extra : option nat) : bool :=
  match extra with Some O => false | _ => true end.

(** [rep cls lazy k lo extra s]: the piece takes a run of [s], the
    continuation [k] matches what follows; on success the run is the head
    of the result. *)
Fixpoint rep (cls : ascii → bool) (lazy : bool) (k : string → option (list string))
    (lo : nat) (extra : option nat) (s : string) {struct s}
  : option (list string) :=
  match lo with
  | S lo' =>
      match s with
      | String c t => if cls c then push c (rep cls lazy k lo' extra t) else None
      | EmptyString => None
      end
  | O =>
      if lazy then
        match k s with
        | Some segs => Some (EmptyString :: segs)
        | None =>
            match s with
            | String c t =>
                if cls c && may_extend extra
                then push c (rep cls lazy k O (pred <$> extra) t)
                else None
            | EmptyString => None
            end
        end
      else
        match
          match s with
          | String c t =>
              if cls c && may_extend extra
              then push c (rep cls lazy k O (pred <$> extra) t)
              else None
          | EmptyString => None
          end
        with
        | Some r => Some r
        | None => cons EmptyString <$> k s
        end
  end.

(** A match of the whole pattern at the start of [s]: the run of every
    piece. *)
Fixpoint run (re : list piece) (s : string) : option (list string) :=
  match re with
  | [] => Some []
  | p :: re' => rep (cls p) (lazy p) (run re') (lo p) (extra p) s
  end.

Fixpoint groups (re : list piece) (segs : list string) : list string :=
  match re, segs with
  | p :: re', seg :: segs' =>
      if cap p then seg :: groups re' segs' else groups re' segs'
  | _, _ => []
  end.

(** The submatch slice: the text of the match, then the text of each
    group. *)
Definition submatch (re : list piece) (segs : list string) : list string :=
  Str.concat segs :: groups re segs.

(** [FindAllStringSubmatch(s, -1)] for a pattern that matches no empty
    string: the leftmost match, then the search resumes where it ends.
    [skip] counts the bytes of the last match still to step over. *)
Fixpoint find_all (re : list piece) (s : string) (skip : nat) : list (list string) :=
  match s with
  | EmptyString => []
  | String _ t =>
      match skip with
      | S k => find_all re t k
      | O =>
          match run re s with
          | Some segs =>
              submatch re segs :: find_all re t (String.length (Str.concat segs) - 1)
          | None => find_all re t 0
          end
      end
  end.

Definition FindAllStringSubmatch (re : list piece) (s : string) : list (list string) :=
  find_all re s 0.

(** Pattern syntax. *)
Definition lit (c : ascii) : piece :=
  {| cls := Ascii.eqb c; lo := 1; extra := Some 0%nat; lazy := false; cap := false |}.
Definition text (s : string) : list piece := List.map lit (list_ascii_of_string s).
Definition star (c : ascii → bool) : piece :=
  {| cls := c; lo := 0; extra := None; lazy := false; cap := false |}.
Definition plus (c : ascii → bool) : piece :=
  {| cls := c; lo := 1; extra := None; lazy := false; cap := false |}.
Definition star_lazy (c : ascii → bool) : piece :=
  {| cls := c; lo := 0; extra := None; lazy := true; cap := false |}.
Definition times (n : nat) (c : ascii → bool) : piece :=
  {| cls := c; lo := n; extra := Some 0%nat; lazy := false; cap := false |}.
Definition group (p : piece) : piece :=
  {| cls := cls p; lo := lo p; extra := extra p; lazy := lazy p; cap := true |}.

(** [\s] is [[\t\n\f\r ]]. *)
Definition space (c : ascii) : bool :=
  let n := Str.code c in
  (n =? 9) || (n =? 10) || (n =? 12) || (n =? 13) || (n =? 32).
Definition non (c : ascii) (x : ascii) : bool := negb (Ascii.eqb x c).
Definition hexdigit (c : ascii) : bool :=
  Str.in_range "a" "f" c || Str.in_range "A" "F" c || Str.in_range "0" "9" c.

End Regexp.

(** ** SignatureParser, line grammar: the DAT importers

    [models.Game], as the importers and the catalogue use it. *)

Record Game := {
  Name : string;
  Filename : string;
  Platform : string;
  Hash : string
}.

Definition dquote : ascii := Str.chr 34.

(** [parseFilename] is the same function in both importers. *)
Definition parseFilename (filename : string) : string :=
  let openIndex := strings_IndexByte filename "(" in
  if openIndex =? -1 then
    let name := strings_TrimSuffix filename ".dat" in
    strings_TrimSpace name
  else
    let platform := strings_TrimSpace (Str.take (Z.to_nat openIndex) filename) in
    let closeIndex := strings_IndexByte (Str.drop (Z.to_nat openIndex) filename) ")" in
    if closeIndex =? -1 then platform else platform.

(** The importer of ROMnibus: the pattern captures the game name, the ROM
    file name and the [sha1] token. *)
Module Romnibus.
Import Regexp.

(** The pattern, its double quotes written [\x22]:
    [(?s)game\s*\(\s*name\s+\x22([^\x22]+)\x22[^}]*?rom\s*\([^}]*?name\s+([^\s]+)[^}]*?sha1\s+([a-fA-F0-9]{40})[^}]*?\)\s*\)] *)
Definition gameBlockRegex : list piece :=
  text "game" ++ [star space] ++ text "(" ++ [star space] ++ text "name"
  ++ [plus space] ++ [lit dquote] ++ [group (plus (non dquote))] ++ [lit dquote]
  ++ [star_lazy (non "}")] ++ text "rom" ++ [star space] ++ text "("
  ++ [star_lazy (non "}")] ++ text "name" ++ [plus space]
  ++ [group (plus (fun c => negb (space c)))]
  ++ [star_lazy (non "}")] ++ text "sha1" ++ [plus space]
  ++ [group (times 40 hexdigit)]
  ++ [star_lazy (non "}")] ++ text ")" ++ [star space] ++ text ")".

(** The body of the loop over the matches. *)
Definition gameEntry `{GoRuntime} (platform : string) (match_ : list string)
  : list Game :=
  if (4 <=? length match_)%nat then
    let gameName := nth 1 match_ EmptyString in
    let filename := nth 2 match_ EmptyString in
    let sha1Hash := nth 3 match_ EmptyString in
    let filename :=
      if strings_HasPrefix filename (String dquote EmptyString)
      then EmptyString else filename in
    [ {| Name := gameName;
         Filename := filename;
         Platform := platform;
         Hash := strings_ToLower sha1Hash |} ]
  else [].

Definition parseDAT `{GoRuntime} (fs : FileSystem) (filename platform : string)
  : result (list Game) :=
  match os_ReadFile fs filename with
  | Err e => Err ("failed to read file: " +:+ e)
  | Ok fileContent =>
      let matches := FindAllStringSubmatch gameBlockRegex fileContent in
      Ok (flat_map (gameEntry platform) matches)
  end.

End Romnibus.

(** The earlier importer: no file name is captured, and a record has a
    name, a platform and a hash. *)
Module Hashy.
Import Regexp.

Record Game := {
  Name : string;
  Platform : string;
  Hash : string
}.

(** The pattern, its double quotes written [\x22]:
    [(?s)game\s*\(\s*name\s+\x22([^\x22]+)\x22[^}]*?rom\s*\([^}]*?sha1\s+([a-fA-F0-9]{40})[^}]*?\)\s*\)] *)
Definition gameBlockRegex : list piece :=
  text "game" ++ [star space] ++ text "(" ++ [star space] ++ text "name"
  ++ [plus space] ++ [lit dquote] ++ [group (plus (non dquote))] ++ [lit dquote]
  ++ [star_lazy (non "}")] ++ text "rom" ++ [star space] ++ text "("
  ++ [star_lazy (non "}")] ++ text "sha1" ++ [plus space]
  ++ [group (times 40 hexdigit)]
  ++ [star_lazy (non "}")] ++ text ")" ++ [star space] ++ text ")".

Definition gameEntry `{GoRuntime} (platform : string) (match_ : list string)
  : list Game :=
  if (3 <=? length match_)%nat then
    let gameName := nth 1 match_ EmptyString in
    let sha1Hash := nth 2 match_ EmptyString in
    if negb (String.eqb gameName EmptyString) && negb (String.eqb sha1Hash EmptyString)
    then [ {| Name := gameName;
              Platform := platform;
              Hash := strings_ToLower sha1Hash |} ]
    else []
  else [].

Definition parseDAT `{GoRuntime} (fs : FileSystem) (filename platform : string)
  : result (list Game) :=
  match os_ReadFile fs filename with
  | Err e => Err ("failed to read file: " +:+ e)
  | Ok fileContent =>
      let matches := FindAllStringSubmatch gameBlockRegex fileContent in
      Ok (flat_map (gameEntry platform) matches)
  end.

End Hashy.

(** ** SignatureParser, structured export: the JSON importer *)

Module JsonImport.

(** A JSON value.  A number is carried by the [int64] its [float64] value
    converts to, which is all [ProcessFile] reads of it; an object keeps
    its members in document order. *)
#[local] Set Warnings "-register-all".
Inductive JSON :=
| JNull
| JBool (b : bool)
| JNumber (n : Z)
| JString (s : string)
| JArray (items : list JSON)
| JObject (members : list (string * JSON)).

(** [m[key]] for the [map[string]interface{}] an object decodes to: of
    several members of that name, the last one is kept. *)
Definition member (members : list (string * JSON)) (key : string) : option JSON :=
  fold_left (fun found kv => if String.eqb (fst kv) key then Some (snd kv) else found)
            members None.

Record ROM := {
  rom_Name : string;
  Size : Z;
  Crc : string;
  Md5 : string;
  Sha1 : string;
  Sha256 : string
}.

Record GameData := {
  Name : string;
  Filename : string;
  Platform : string;
  ROMs : list ROM
}.

Record SignatureDataObject := {
  sig_Name : string;
  Year : string;
  sig_Platform : string
}.

(** [Value] is a [json.RawMessage]: [None] when the member is missing. *)
Record Attribute := {
  AttributeName : string;
  Value : option JSON
}.

Record GameFile := {
  Id : Z;
  ObjectType : string;
  gf_Name : string;
  SignatureDataObjects : list SignatureDataObject;
  Attributes : list Attribute
}.

(** [json.Unmarshal(content, &data)] for [data : GameFile]. *)
Class Decoder := {
  json_Unmarshal : string → result GameFile
}.

(** [v.(string)] and [v.(float64)] on a looked-up member: the zero value
    of the field stays when the member is missing or of another type. *)
Definition string_or (d : string) (v : option JSON) : string :=
  match v with Some (JString s) => s | _ => d end.

Definition int64_or (d : Z) (v : option JSON) : Z :=
  match v with Some (JNumber n) => n | _ => d end.

Definition rom_of (romObj : list (string * JSON)) : ROM :=
  {| rom_Name := string_or EmptyString (member romObj "Name");
     Size := int64_or 0 (member romObj "Size");
     Crc := string_or EmptyString (member romObj "Crc");
     Md5 := string_or EmptyString (member romObj "Md5");
     Sha1 := string_or EmptyString (member romObj "Sha1");
     Sha256 := string_or EmptyString (member romObj "Sha256") |}.

Definition nonempty (s : string) : bool := negb (String.eqb s EmptyString).

(** Only ROMs with at least one hash populated are included. *)
Definition keep_rom (rom : ROM) : list ROM :=
  if nonempty (Crc rom) || nonempty (Md5 rom) || nonempty (Sha1 rom)
     || nonempty (Sha256 rom)
  then [rom] else [].

(** The ROMs one attribute contributes: [Value] decodes as an array (the
    document's [null] decodes as the empty one), or else as one object. *)
Definition attr_roms (attr : Attribute) : list ROM :=
  if String.eqb (AttributeName attr) "ROMs" then
    match Value attr with
    | Some (JArray romArray) =>
        flat_map (fun item =>
                    match item with
                    | JObject romObj => keep_rom (rom_of romObj)
                    | _ => []
                    end) romArray
    | Some JNull => []
    | Some (JObject romObj) => keep_rom (rom_of romObj)
    | _ => []
    end
  else [].

(** The loop shared by [Deduplicate] and [MergeAndDeduplicate]: [seen] is
    the [map[string]bool], which only ever holds [true]. *)
Fixpoint dedup_loop {A} (key : A → string) (l : list A)
    (seen : gset string) (unique : list A) : list A :=
  match l with
  | [] => unique
  | x :: r =>
      if decide (key x ∈ seen) then dedup_loop key r seen unique
      else dedup_loop key r ({[key x]} ∪ seen) (unique ++ [x])
  end.

(** [fmt.Sprintf("%s:%s:%s:%s", rom.Crc, rom.Md5, rom.Sha1, rom.Sha256)] *)
Definition rom_key (rom : ROM) : string :=
  Crc rom +:+ ":" +:+ Md5 rom +:+ ":" +:+ Sha1 rom +:+ ":" +:+ Sha256 rom.

Definition Deduplicate (roms : list ROM) : list ROM :=
  dedup_loop rom_key roms ∅ [].

(** [fmt.Sprintf("%s:%s:%s", game.Name, game.Filename, game.Platform)] *)
Definition game_key (game : GameData) : string :=
  Name game +:+ ":" +:+ Filename game +:+ ":" +:+ Platform game.

Definition MergeAndDeduplicate (games : list GameData) : list GameData :=
  dedup_loop game_key games ∅ [].

Definition with_Platform (game : GameData) (plat : string) : GameData :=
  {| Name := Name game; Filename := Filename game; Platform := plat;
     ROMs := ROMs game |}.

(** The platforms the signatures name: the one of the first signature and
    every non-empty one. *)
Definition platform_set (platform : string) (sigs : list SignatureDataObject)
  : gset string :=
  fold_left (fun platforms sig =>
               if nonempty (sig_Platform sig)
               then {[sig_Platform sig]} ∪ platforms else platforms)
            sigs
            (if nonempty platform then {[platform]} else ∅).

(** [ProcessFile] once the document is decoded. *)
Definition process `{GoRuntime} (filename : string) (data : GameFile)
  : list GameData :=
  let platform :=
    match SignatureDataObjects data with
    | sig :: _ => sig_Platform sig
    | [] => EmptyString
    end in
  let roms := flat_map attr_roms (Attributes data) in
  let roms := Deduplicate roms in
  let game :=
    {| Name := gf_Name data;
       Filename := strings_TrimSuffix filename (filepath_Ext filename);
       Platform := platform;
       ROMs := roms |} in
  let platforms := platform_set platform (SignatureDataObjects data) in
  if (1 <? size platforms)%nat
  then List.map (with_Platform game) (map_range platforms)
  else [game].

Definition ProcessFile `{GoRuntime} `{Decoder} (fs : FileSystem) (filename : string)
  : result (list GameData) :=
  match os_ReadFile fs filename with
  | Err e => Err ("error reading file " +:+ filename +:+ ": " +:+ e)
  | Ok content =>
      match json_Unmarshal content with
      | Err e => Err ("error parsing JSON in " +:+ filename +:+ ": " +:+ e)
      | Ok data => Ok (process filename data)
      end
  end.

End JsonImport.

(** ** CatalogStore: the lookups of [utils/db.go]

    The table [games] is the list of its rows in the order a scan visits
    them; [hash] may be [NULL].  A [*sql.DB] is [None] when nil; the table
    is [Err] when the statement cannot be run on the connection. *)

Record Row := {
  row_name : string;
  row_filename : string;
  row_platform : string;
  row_hash : option string
}.

Record sql_DB := {
  games : result (list Row)
}.

(** SQLite's [LOWER]: the ASCII letters only. *)
Definition sqlite_LOWER (s : string) : string := Str.map lower_ascii s.

(** [rows.Scan(&game.Name, &game.Filename, &game.Platform, &game.Hash)]: a
    [NULL] cannot be stored in a [string]. *)
Definition Scan (r : Row) : result Game :=
  match row_hash r with
  | Some h =>
      Ok {| Name := row_name r; Filename := row_filename r;
            Platform := row_platform r; Hash := h |}
  | None =>
      Err "sql: Scan error on column index 3, name hash: converting NULL to string is unsupported"
  end.

(** [SELECT name, filename, platform, hash FROM games
     WHERE LOWER(hash) = LOWER(?) LIMIT 1] *)
Definition select_by_hash (rows : list Row) (hash : string) : option Row :=
  List.find (fun r =>
               match row_hash r with
               | Some h => String.eqb (sqlite_LOWER h) (sqlite_LOWER hash)
               | None => false
               end) rows.

(** [... WHERE LOWER(filename) = LOWER(?) LIMIT 1] *)
Definition select_by_filename (rows : list Row) (filename : string) : option Row :=
  List.find (fun r => String.eqb (sqlite_LOWER (row_filename r)) (sqlite_LOWER filename))
            rows.

Definition FindByHash (db : option sql_DB) (hash : string) : result (option Game) :=
  match db with
  | None => Err "database is not initialized"
  | Some db =>
      match games db with
      | Err e => Err ("failed to query game by hash: " +:+ e)
      | Ok rows =>
          match select_by_hash rows hash with
          | None => Ok None
          | Some r =>
              match Scan r with
              | Err e => Err ("failed to query game by hash: " +:+ e)
              | Ok game => Ok (Some game)
              end
          end
      end
  end.

Definition FindByFilename (db : option sql_DB) (filename : string)
  : result (option Game) :=
  match db with
  | None => Err "database is not initialized"
  | Some db =>
      match games db with
      | Err e => Err ("failed to query game by filename: " +:+ e)
      | Ok rows =>
          match select_by_filename rows filename with
          | None => Ok None
          | Some r =>
              match Scan r with
              | Err e => Err ("failed to query game by filename: " +:+ e)
              | Ok game => Ok (Some game)
              end
          end
      end
  end.

(** ** The rest of the DAT importer of ROMnibus: from the files to the table *)

(** *** [filepath.Base] (Unix path separator)

    Trailing separators are dropped, then the last element is taken; an
    empty path gives a dot, a path of separators only gives a separator. *)
Fixpoint strip_slashes (rpath : string) : string :=
  match rpath with
  | String c r => if Ascii.eqb c "/" then strip_slashes r else rpath
  | EmptyString => EmptyString
  end.

Fixpoint last_element (rpath acc : string) : string :=
  match rpath with
  | EmptyString => acc
  | String c r => if Ascii.eqb c "/" then acc else last_element r (String c acc)
  end.

Definition filepath_Base (path : string) : string :=
  if String.eqb path EmptyString then "."
  else
    let path := last_element (strip_slashes (String.rev path)) EmptyString in
    if String.eqb path EmptyString then "/" else path.

Module Populate.

(** The test of the walk of [downloadDATFiles]: which entries of the
    repository are taken for DAT files. *)
Definition is_dat_file `{GoRuntime} (isDir : bool) (name : string) : bool :=
  negb isDir && strings_HasSuffix (strings_ToLower name) ".dat".

(** The first loop of [populateDB]: the games of every file that parses,
    grouped by the platform its name gives. *)
Definition group_step `{GoRuntime} (fs : FileSystem)
    (gameMap : gmap string (list Game)) (filePath : string)
  : gmap string (list Game) :=
  let filename := filepath_Base filePath in
  let platform := parseFilename filename in
  match Romnibus.parseDAT fs filePath platform with
  | Err _ => gameMap
  | Ok games => <[platform := default [] (gameMap !! platform) ++ games]> gameMap
  end.

Definition group_games `{GoRuntime} (fs : FileSystem) (datFiles : list string)
  : gmap string (list Game) :=
  fold_left (group_step fs) datFiles ∅.

(** What can go wrong in one transaction, beside a table that cannot be
    used: the error, if any, of [db.Begin], of [tx.Prepare], of [stmt.Exec]
    on a game, and of [tx.Commit]. *)
Record TxFaults := {
  begin_err : option string;
  prepare_err : option string;
  exec_err : Game → option string;
  commit_err : option string
}.

(** [INSERT OR IGNORE INTO games (name, filename, platform, hash)] under
    the schema's [UNIQUE (filename, hash)]: a row of the same file name and
    hash makes the statement a no-op; otherwise the row is added after the
    others. *)
Definition conflicts (game : Game) (r : Row) : bool :=
  String.eqb (row_filename r) (Filename game)
  && match row_hash r with
     | Some h => String.eqb h (Hash game)
     | None => false
     end.

Definition row_of (game : Game) : Row :=
  {| row_name := Name game; row_filename := Filename game;
     row_platform := Platform game; row_hash := Some (Hash game) |}.

Definition insert_or_ignore (rows : list Row) (game : Game) : list Row :=
  if existsb (conflicts game) rows then rows else rows ++ [row_of game].

(** The loop over the games, inside the transaction. *)
Fixpoint exec_all (faults : TxFaults) (games : list Game) (rows : list Row)
  : result (list Row) :=
  match games with
  | [] => Ok rows
  | game :: rest =>
      match exec_err faults game with
      | Some e => Err ("failed to insert game " +:+ Name game +:+ ": " +:+ e)
      | None => exec_all faults rest (insert_or_ignore rows game)
      end
  end.

(** [insertGames]: the error it returns ([None] for nil) and the database
    after the call.  The deferred [tx.Rollback] undoes the transaction on
    every return but the one after a successful [tx.Commit]. *)
Definition insertGames (faults : TxFaults) (db : sql_DB) (games_ : list Game)
  : option string * sql_DB :=
  match begin_err faults with
  | Some e => (Some ("failed to begin transaction: " +:+ e), db)
  | None =>
      match prepare_err faults, games db with
      | Some e, _ => (Some ("failed to prepare statement: " +:+ e), db)
      | None, Err e => (Some ("failed to prepare statement: " +:+ e), db)
      | None, Ok rows =>
          match exec_all faults games_ rows with
          | Err e => (Some e, db)
          | Ok rows' =>
              match commit_err faults with
              | Some e => (Some ("failed to commit transaction: " +:+ e), db)
              | None => (None, {| games := Ok rows' |})
              end
          end
      end
  end.

(** The second loop of [populateDB], over the platforms in the order the
    map gives them: [Err] is the panic on a failed [insertGames]; on
    success, the database and [totalGames]. *)
Fixpoint insert_all (faults : string → TxFaults) (gameMap : gmap string (list Game))
    (platforms : list string) (db : sql_DB) (totalGames : nat)
  : result (sql_DB * nat) :=
  match platforms with
  | [] => Ok (db, totalGames)
  | platform :: rest =>
      let games_ := default [] (gameMap !! platform) in
      match insertGames (faults platform) db games_ with
      | (Some e, _) => Err e
      | (None, db') => insert_all faults gameMap rest db' (totalGames + length games_)
      end
  end.

(** [populateDB], from the list [downloadDATFiles] returned. *)
Definition populateDB `{GoRuntime} (fs : FileSystem) (faults : string → TxFaults)
    (db : sql_DB) (datFiles : list string) : result (sql_DB * nat) :=
  let gameMap := group_games fs datFiles in
  insert_all faults gameMap (map_range (dom gameMap)) db 0.

End Populate.

(** ** The rest of the JSON importer: the loop of [main] *)

Module JsonMain.
Import JsonImport.

(** The games of every file that [ProcessFile] accepts, in the order of
    the files. *)
Definition collect `{GoRuntime} `{Decoder} (fs : FileSystem) (files : list string)
  : list GameData :=
  fold_left (fun allGames file =>
               match ProcessFile fs file with
               | Err _ => allGames
               | Ok games => allGames ++ games
               end) files [].

(** What [main] prints: the merged games. *)
Definition allGames `{GoRuntime} `{Decoder} (fs : FileSystem) (files : list string)
  : list GameData :=
  MergeAndDeduplicate (collect fs files).

End JsonMain.

(** * Vocabulary of the properties *)

(** A runtime to evaluate the programs with: the keys of a map are visited
    in the order of [elements], and [strings.ToLower] leaves a string that
    is not pure ASCII as it is. *)
Definition sample_runtime : GoRuntime :=
  {| unicode_ToLower_Map := fun s => s;
     map_range := elements;
     map_range_perm := fun m => reflexivity (elements m) |}.

(** A readable file of the given content. *)
Definition file_of (content : string) : result Reader :=
  Ok {| rd_data := content; rd_err := None |}.

Definition is_lower_hex (c : ascii) : bool :=
  Str.in_range "0" "9" c || Str.in_range "a" "f" c.

(** A string of [n] lowercase hexadecimal digits. *)
Definition lower_hex (n : nat) (s : string) : Prop :=
  String.length s = n ∧ Str.all is_lower_hex s = true.

(** Sample files: a ROM image, the same image under the name of another
    archive format, a zip archive holding it, and an empty zip archive. *)
Definition sample_entry : zip_File :=
  {| zf_Name := "game.bin"; zf_Open := file_of "abc" |}.

Definition sample_fs : FileSystem :=
  {| os_Open := fun p =>
       if String.eqb p "roms/game.bin" then file_of "abc"
       else if String.eqb p "roms/game.RAR" then file_of "abc"
       else Err "no such file or directory";
     zip_OpenReader := fun p =>
       if String.eqb p "roms/game.ZIP" then Ok [sample_entry]
       else if String.eqb p "roms/empty.zip" then Ok []
       else Err "zip: not a valid zip file" |}.

(** What a successful match gives for one piece of a pattern: a run of the
    class, of an allowed length. *)
Definition fits (p : Regexp.piece) (seg : string) : Prop :=
  Str.all (Regexp.cls p) seg = true
  ∧ (Regexp.lo p ≤ String.length seg)%nat
  ∧ ∀ e, Regexp.extra p = Some e → (String.length seg ≤ Regexp.lo p + e)%nat.

(** A DAT file with two game blocks, the first with a quoted ROM name. *)
Definition sample_dat : string :=
  let q := String dquote EmptyString in
  let nl := String (Str.chr 10) EmptyString in
  "game (" +:+ nl
  +:+ "	name " +:+ q +:+ "Super Game (USA)" +:+ q +:+ nl
  +:+ "	rom ( name " +:+ q +:+ "Super Game (USA).bin" +:+ q
  +:+ " size 1024 crc 1234ABCD sha1 DEADBEEF00112233445566778899AABBCCDDEEFF )" +:+ nl
  +:+ ")" +:+ nl
  +:+ "game ( name " +:+ q +:+ "Other" +:+ q
  +:+ " rom ( name game.bin sha1 0123456789abcdef0123456789ABCDEF01234567 ) )".

Definition dat_fs : FileSystem :=
  {| os_Open := fun p =>
       if String.eqb p "Sega - Mega Drive.dat" then file_of sample_dat
       else Err "no such file or directory";
     zip_OpenReader := fun _ => Err "zip: not a valid zip file" |}.

(** [h] is the normalized form of the matched [sha1] token [tok]: the token
    has 40 hexadecimal digits and [h] is the token with its letters in
    lowercase. *)
Definition normalized_from `{GoRuntime} (tok h : string) : Prop :=
  String.length tok = 40%nat
  ∧ Str.all Regexp.hexdigit tok = true
  ∧ h = strings_ToLower tok
  ∧ h = Str.map lower_ascii tok
  ∧ lower_hex 40 h.

(** The record an importer builds from the slice [m] of a match. *)
Definition built_from `{GoRuntime} (platform : string) (m : list string) (g : Game)
  : Prop :=
  Name g = nth 1 m EmptyString ∧ Name g ≠ EmptyString
  ∧ Filename g = (if strings_HasPrefix (nth 2 m EmptyString) (String dquote EmptyString)
                  then EmptyString else nth 2 m EmptyString)
  ∧ Platform g = platform
  ∧ normalized_from (nth 3 m EmptyString) (Hash g).

Definition built_from_hashy `{GoRuntime} (platform : string) (m : list string)
    (g : Hashy.Game) : Prop :=
  Hashy.Name g = nth 1 m EmptyString ∧ Hashy.Name g ≠ EmptyString
  ∧ Hashy.Platform g = platform
  ∧ normalized_from (nth 2 m EmptyString) (Hashy.Hash g).

(** The platform derivation in the words of the specification: the part of
    the file name before its first opening parenthesis, or else the file
    name without its extension, trimmed. *)
Definition platform_per_spec (filename : string) : string :=
  let i := strings_IndexByte filename "(" in
  if i =? -1
  then strings_TrimSpace (strings_TrimSuffix filename (filepath_Ext filename))
  else strings_TrimSpace (Str.take (Z.to_nat i) filename).

(** A string made of white-space runes only. *)
Inductive blank : string → Prop :=
| blank_nil : blank EmptyString
| blank_1 c s : asciiSpace c = true → blank s → blank (String c s)
| blank_2 c1 c2 s :
    space2 c1 c2 = true → blank s → blank (String c1 (String c2 s))
| blank_3 c1 c2 c3 s :
    space3 c1 c2 c3 = true → blank s → blank (String c1 (String c2 (String c3 s))).

(** The platform of the first signature descriptor, if any. *)
Definition first_platform (data : JsonImport.GameFile) : string :=
  match JsonImport.SignatureDataObjects data with
  | sig :: _ => JsonImport.sig_Platform sig
  | [] => EmptyString
  end.

(** The distinct non-empty platform strings the signature descriptors
    enumerate. *)
Definition distinct_platforms (data : JsonImport.GameFile) : list string :=
  remove_dups
    (List.filter JsonImport.nonempty
       (List.map JsonImport.sig_Platform (JsonImport.SignatureDataObjects data))).

(** Sample documents: a game signed for two platforms, and one without
    signature descriptors. *)
Definition sample_roms : JsonImport.Attribute :=
  {| JsonImport.AttributeName := "ROMs";
     JsonImport.Value :=
       Some (JsonImport.JArray
               [JsonImport.JObject
                  [("Name", JsonImport.JString "pong.bin");
                   ("Size", JsonImport.JNumber 2048);
                   ("Sha1", JsonImport.JString "a9993e364706816aba3e25717850c26c9cd0d89d")]]) |}.

Definition sample_signature (platform : string) : JsonImport.SignatureDataObject :=
  {| JsonImport.sig_Name := "Pong"; JsonImport.Year := "1972";
     JsonImport.sig_Platform := platform |}.

Definition two_platform_doc : JsonImport.GameFile :=
  {| JsonImport.Id := 7; JsonImport.ObjectType := "Game"; JsonImport.gf_Name := "Pong";
     JsonImport.SignatureDataObjects :=
       [sample_signature "Arcade"; sample_signature ""; sample_signature "Atari 2600";
        sample_signature "Arcade"];
     JsonImport.Attributes := [sample_roms] |}.

Definition unsigned_doc : JsonImport.GameFile :=
  {| JsonImport.Id := 8; JsonImport.ObjectType := "Game"; JsonImport.gf_Name := "Pong";
     JsonImport.SignatureDataObjects := [];
     JsonImport.Attributes := [sample_roms] |}.

(** A decoder and files for the samples: the content of a file names the
    document it decodes to. *)
Definition sample_decoder : JsonImport.Decoder :=
  {| JsonImport.json_Unmarshal := fun content =>
       if String.eqb content "two platforms" then Ok two_platform_doc
       else if String.eqb content "unsigned" then Ok unsigned_doc
       else Err "invalid character" |}.

Definition json_fs : FileSystem :=
  {| os_Open := fun p =>
       if String.eqb p "json/pong.json" then file_of "two platforms"
       else if String.eqb p "json/unsigned.json" then file_of "unsigned"
       else Err "no such file or directory";
     zip_OpenReader := fun _ => Err "zip: not a valid zip file" |}.

(** A catalogue with two rows of the same hash in different letter case. *)
Definition sample_rows : list Row :=
  [ {| row_name := "Other"; row_filename := "other.bin"; row_platform := "Sega - Mega Drive";
       row_hash := Some "0123456789abcdef0123456789abcdef01234567" |};
    {| row_name := "Super Game (USA)"; row_filename := ""; row_platform := "Sega - Mega Drive";
       row_hash := Some "DEADBEEF00112233445566778899aabbccddeeff" |};
    {| row_name := "Super Game (Europe)"; row_filename := "super.bin";
       row_platform := "Sega - Mega Drive";
       row_hash := Some "deadbeef00112233445566778899aabbccddeeff" |} ].

Definition sample_db : option sql_DB := Some {| games := Ok sample_rows |}.

(** The specification of de-duplication: an element is kept when no element
    before it has the same key. *)
Fixpoint first_occurrences {A K} `{EqDecision K} (key : A → K) (l : list A) : list A :=
  match l with
  | [] => []
  | x :: r => x :: filter (fun y => key y ≠ key x) (first_occurrences key r)
  end.

(** The keys the specification names. *)
Definition digests (rom : JsonImport.ROM) : string * string * string * string :=
  (JsonImport.Crc rom, JsonImport.Md5 rom, JsonImport.Sha1 rom, JsonImport.Sha256 rom).

Definition identity (game : JsonImport.GameData) : string * string * string :=
  (JsonImport.Name game, JsonImport.Filename game, JsonImport.Platform game).

Definition colon_free (s : string) : Prop := strings_IndexByte s ":" = -1.

(** Two ROMs of different digests, and two games of different identity,
    whose keys collide. *)
Definition rom_a : JsonImport.ROM :=
  {| JsonImport.rom_Name := "a.bin"; JsonImport.Size := 16;
     JsonImport.Crc := "a:b"; JsonImport.Md5 := ""; JsonImport.Sha1 := "";
     JsonImport.Sha256 := "" |}.

Definition rom_b : JsonImport.ROM :=
  {| JsonImport.rom_Name := "b.bin"; JsonImport.Size := 32;
     JsonImport.Crc := "a"; JsonImport.Md5 := "b:"; JsonImport.Sha1 := "";
     JsonImport.Sha256 := "" |}.

Definition game_a : JsonImport.GameData :=
  {| JsonImport.Name := "Quest"; JsonImport.Filename := "II:remix";
     JsonImport.Platform := "Arcade"; JsonImport.ROMs := [] |}.

Definition game_b : JsonImport.GameData :=
  {| JsonImport.Name := "Quest:II"; JsonImport.Filename := "remix";
     JsonImport.Platform := "Arcade"; JsonImport.ROMs := [] |}.

(** * Vocabulary of the further properties *)

(** Two answers of [zip.OpenReader] that agree on what [calculateZipHash]
    looks at: the error, or the first entry. *)
Definition same_archive_head (a b : result (list zip_File)) : Prop :=
  match a, b with
  | Err e, Err e' => e = e'
  | Ok [], Ok [] => True
  | Ok (x :: _), Ok (y :: _) => x = y
  | _, _ => False
  end.

(** The sample archive with two more entries, and unreadable as a plain
    file. *)
Definition crowded_fs : FileSystem :=
  {| os_Open := fun _ => Err "permission denied";
     zip_OpenReader := fun p =>
       if String.eqb p "roms/game.ZIP"
       then Ok [sample_entry;
                {| zf_Name := "readme.txt"; zf_Open := file_of "read me" |};
                {| zf_Name := "broken.bin"; zf_Open := Err "unsupported compression" |}]
       else Err "zip: not a valid zip file" |}.

(** [part] occurs in [whole] as a run of consecutive bytes. *)
Definition occurs_in (part whole : string) : Prop :=
  ∃ pre post, whole = pre +:+ part +:+ post.

(** A run of 40 hexadecimal digits. *)
Definition hex_token (tok : string) : Prop :=
  String.length tok = 40%nat ∧ Str.all Regexp.hexdigit tok = true.

(** A file with a header block and no game. *)
Definition header_fs : FileSystem :=
  {| os_Open := fun _ => file_of "clrmamepro ( name Sega )";
     zip_OpenReader := fun _ => Err "zip: not a valid zip file" |}.

(** The record [Scan] builds from a row whose hash is [h]. *)
Definition game_of_row (r : Row) (h : string) : Game :=
  {| Name := row_name r; Filename := row_filename r;
     Platform := row_platform r; Hash := h |}.

(** A catalogue in which a row without hash comes before a row of the same
    file name with one. *)
Definition null_hash_rows : list Row :=
  [ {| row_name := "Pong (proto)"; row_filename := "PONG.BIN"; row_platform := "Arcade";
       row_hash := None |};
    {| row_name := "Pong"; row_filename := "pong.bin"; row_platform := "Arcade";
       row_hash := Some "a9993e364706816aba3e25717850c26c9cd0d89d" |} ].

(** The key of the schema's [UNIQUE (filename, hash)], for a row that has a
    hash (rows whose hash is NULL never conflict). *)
Definition row_key (r : Row) : option (string * string) :=
  (fun h => (row_filename r, h)) <$> row_hash r.

(** No two rows have the same key. *)
Definition unique_keys (rows : list Row) : Prop := NoDup (omap row_key rows).

(** A transaction in which nothing goes wrong. *)
Definition no_faults : Populate.TxFaults :=
  {| Populate.begin_err := None; Populate.prepare_err := None;
     Populate.exec_err := fun _ => None; Populate.commit_err := None |}.

(** A transaction that breaks on a game of the given name. *)
Definition fault_on (name : string) : Populate.TxFaults :=
  {| Populate.begin_err := None; Populate.prepare_err := None;
     Populate.exec_err := fun g =>
       if String.eqb (Name g) name then Some "disk I/O error" else None;
     Populate.commit_err := None |}.

Definition sample_games : list Game :=
  [ {| Name := "Pong"; Filename := "pong.bin"; Platform := "Arcade";
       Hash := "a9993e364706816aba3e25717850c26c9cd0d89d" |};
    {| Name := "Other"; Filename := "other.bin"; Platform := "Arcade";
       Hash := "0123456789abcdef0123456789abcdef01234567" |};
    {| Name := "Pong (alt)"; Filename := "pong.bin"; Platform := "Arcade";
       Hash := "a9993e364706816aba3e25717850c26c9cd0d89d" |} ].

Definition empty_db : sql_DB := {| games := Ok [] |}.

(** The platform [populateDB] derives for a DAT file, and the records the
    file gives (none when it cannot be read). *)
Definition dat_platform (filePath : string) : string :=
  parseFilename (filepath_Base filePath).

Definition parsed `{GoRuntime} (fs : FileSystem) (filePath : string) : list Game :=
  match Romnibus.parseDAT fs filePath (dat_platform filePath) with
  | Ok games_ => games_
  | Err _ => []
  end.

(** The records of the files of one platform, in the order of the files. *)
Definition games_of_platform `{GoRuntime} (fs : FileSystem) (datFiles : list string)
    (platform : string) : list Game :=
  flat_map (fun filePath =>
              if String.eqb (dat_platform filePath) platform
              then parsed fs filePath else []) datFiles.

(** A repository with one DAT file that lists the SHA-1 sum of the sample
    ROM image, an unreadable DAT file, and the image itself, plain and in
    an archive. *)
Definition listing_dat : string :=
  "game ( name " +:+ String dquote "Pong" +:+ String dquote
  " rom ( name pong.bin size 3 sha1 A9993E364706816ABA3E25717850C26C9CD0D89D ) )".

Definition repo_fs : FileSystem :=
  {| os_Open := fun p =>
       if String.eqb p "metadat/no-intro/Atari - 2600 (v1).dat" then file_of listing_dat
       else if String.eqb p "roms/game.bin" then file_of "abc"
       else Err "no such file or directory";
     zip_OpenReader := fun p =>
       if String.eqb p "roms/game.ZIP" then Ok [sample_entry]
       else Err "zip: not a valid zip file" |}.

Definition repo_files : list string :=
  ["metadat/no-intro/Atari - 2600 (v1).dat"; "metadat/no-intro/Missing.dat"].

(** The table of [db] has a row of the key of [g]. *)
Definition has_row (db : sql_DB) (g : Game) : Prop :=
  ∃ rows, games db = Ok rows ∧ existsb (Populate.conflicts g) rows = true.

(** The bytes [CalculateFileHash] hashes for [path] are [data]: those of
    the file, or those of the first entry of the archive. *)
Definition hashed_bytes `{GoRuntime} (fs : FileSystem) (path data : string) : Prop :=
  (strings_ToLower (filepath_Ext path) ≠ ".zip" ∧ os_Open fs path = file_of data)
  ∨ (strings_ToLower (filepath_Ext path) = ".zip"
     ∧ ∃ entry others,
         zip_OpenReader fs path = Ok (entry :: others)
         ∧ zf_Open entry = file_of data).

(** A ROM has at least one digest. *)
Definition has_digest (rom : JsonImport.ROM) : Prop :=
  JsonImport.Crc rom ≠ EmptyString ∨ JsonImport.Md5 rom ≠ EmptyString
  ∨ JsonImport.Sha1 rom ≠ EmptyString ∨ JsonImport.Sha256 rom ≠ EmptyString.


(** A document whose first signature descriptor names no platform. *)
Definition late_platform_doc : JsonImport.GameFile :=
  {| JsonImport.Id := 9; JsonImport.ObjectType := "Game"; JsonImport.gf_Name := "Pong";
     JsonImport.SignatureDataObjects := [sample_signature ""; sample_signature "Arcade"];
     JsonImport.Attributes :=
       [sample_roms;
        {| JsonImport.AttributeName := "ROMs";
           JsonImport.Value :=
             Some (JsonImport.JObject [("Name", JsonImport.JString "nodigest.bin")]) |}] |}.

Definition late_decoder : JsonImport.Decoder :=
  {| JsonImport.json_Unmarshal := fun _ => Ok late_platform_doc |}.

(** The string begins with a white-space rune. *)
Definition space_head (s : string) : bool :=
  match s with
  | String c1 t1 =>
      asciiSpace c1
      || match t1 with
         | String c2 t2 =>
             space2 c1 c2
             || match t2 with
                | String c3 _ => space3 c1 c2 c3
                | EmptyString => false
                end
         | EmptyString => false
         end
  | EmptyString => false
  end.

(** * Properties *)

(** ** The embedding on known values *)

(** FIPS 180 test vectors. *)
Example sha1_of_nothing :
  Sprintf_x (SHA1.Sum EmptyString) = "da39a3ee5e6b4b0d3255bfef95601890afd80709".
Proof. by vm_compute. Qed.

Example sha1_of_abc :
  Sprintf_x (SHA1.Sum "abc") = "a9993e364706816aba3e25717850c26c9cd0d89d".
Proof. by vm_compute. Qed.

Example sha1_of_two_blocks :
  Sprintf_x (SHA1.Sum "abcdbcdecdefdefgefghfghighijhijkijkljklmklmnlmnomnopnopq")
  = "84983e441c3bd26ebaae4aa1f95129e5e54670f1".
Proof. by vm_compute. Qed.

Example Ext_examples :
  filepath_Ext "roms/game.v1.ZIP" = ".ZIP"
  ∧ filepath_Ext "roms.d/game" = EmptyString
  ∧ filepath_Ext ".zip" = ".zip"
  ∧ filepath_Ext "game." = ".".
Proof. by vm_compute. Qed.

Example TrimSpace_examples :
  strings_TrimSpace "  Sega - Mega Drive 	" = "Sega - Mega Drive"
  ∧ strings_TrimSpace (String (Str.chr 194) (String (Str.chr 160) "x")) = "x"
  ∧ strings_TrimSpace (String (Str.chr 160) "x") = String (Str.chr 160) "x".
Proof. by vm_compute. Qed.

(** The line of the specification:
    [game ( name <Super Game> rom ( name game.bin sha1 DEADBEEF... ) )],
    the name in double quotes. *)
Example parseDAT_line :
  @Romnibus.parseDAT sample_runtime
    {| os_Open := fun _ =>
         file_of ("game ( name " +:+ String dquote "Super Game" +:+ String dquote
                    " rom ( name game.bin sha1 DEADBEEFdeadbeef0123456789abcdefABCDEF01 ) )");
       zip_OpenReader := fun _ => Err "not a zip file" |}
    "Sega - Mega Drive.dat" "Sega - Mega Drive"
  = Ok [ {| Name := "Super Game"; Filename := "game.bin";
            Platform := "Sega - Mega Drive";
            Hash := "deadbeefdeadbeef0123456789abcdefabcdef01" |} ].
Proof. by vm_compute. Qed.

(** A block without [sha1] token is skipped, and the search goes on after a
    match. *)
Example parseDAT_sample :
  @Hashy.parseDAT sample_runtime dat_fs "Sega - Mega Drive.dat" "Sega - Mega Drive"
  = Ok [ {| Hashy.Name := "Super Game (USA)"; Hashy.Platform := "Sega - Mega Drive";
            Hashy.Hash := "deadbeef00112233445566778899aabbccddeeff" |};
         {| Hashy.Name := "Other"; Hashy.Platform := "Sega - Mega Drive";
            Hashy.Hash := "0123456789abcdef0123456789abcdef01234567" |} ]
  ∧ @Romnibus.parseDAT sample_runtime
      {| os_Open := fun _ =>
           file_of ("game ( name " +:+ String dquote "No Digest" +:+ String dquote
                      " rom ( name a.bin crc 1234ABCD ) )");
         zip_OpenReader := fun _ => Err "not a zip file" |}
      "a.dat" "a"
    = Ok [].
Proof. by vm_compute. Qed.

(** ** Digests *)

Lemma hex_digit_lower (d : Z) : 0 <= d < 16 → is_lower_hex (hex_digit d) = true.
Proof.
  intros Hd.
  assert (Hc : d = 0 ∨ d = 1 ∨ d = 2 ∨ d = 3 ∨ d = 4 ∨ d = 5 ∨ d = 6 ∨ d = 7
               ∨ d = 8 ∨ d = 9 ∨ d = 10 ∨ d = 11 ∨ d = 12 ∨ d = 13 ∨ d = 14
               ∨ d = 15) by lia.
  repeat (destruct Hc as [-> | Hc]; [reflexivity |]). subst d. reflexivity.
Qed.

Lemma Sprintf_x_lower (b : list Z) :
  Forall (fun x => 0 <= x < 256) b →
  lower_hex (2 * length b) (Sprintf_x b).
Proof.
  induction 1 as [| x r Hx _ [IHlen IHall]]; [done |].
  split; cbn [Sprintf_x String.length Str.all length].
  - rewrite IHlen. lia.
  - rewrite IHall, !hex_digit_lower; [done | |].
    + apply Z.mod_pos_bound. lia.
    + split; [apply Z.div_pos; lia | apply Z.div_lt_upper_bound; lia].
Qed.

Module SHA1_facts.
Import SHA1.

Lemma be_bytes_spec (n : nat) (x : Z) :
  length (be_bytes n x) = n ∧ Forall (fun b => 0 <= b < 256) (be_bytes n x).
Proof.
  unfold be_bytes. split.
  - by rewrite length_map, length_rev, length_seq.
  - apply Forall_map, Forall_forall. intros i _. cbn. apply Z.mod_pos_bound. lia.
Qed.

Lemma block_length (h p : list Z) : length (block h p) = length h.
Proof.
  unfold block.
  do 5 (destruct h as [| ? h]; [reflexivity |]).
  destruct h; [| reflexivity].
  by destruct (fold_left _ _ _) as [[[[? ?] ?] ?] ?].
Qed.

Lemma blocks_length (n : nat) (h p : list Z) : length (blocks n h p) = length h.
Proof.
  revert h p. induction n as [| n IH]; intros h p; [done |].
  cbn [blocks]. by rewrite IH, block_length.
Qed.

Lemma words_bytes (ws : list Z) :
  length (concat (List.map (be_bytes 4) ws)) = (4 * length ws)%nat
  ∧ Forall (fun b => 0 <= b < 256) (concat (List.map (be_bytes 4) ws)).
Proof.
  induction ws as [| w ws [IHl IHf]]; [by split |].
  destruct (be_bytes_spec 4 w) as [Hl Hf].
  cbn [List.map concat]. split.
  - rewrite length_app, Hl, IHl. cbn [length]. lia.
  - by apply Forall_app.
Qed.

(** The digest has 160 bits. *)
Lemma Sum_bytes (data : string) :
  length (Sum data) = 20%nat ∧ Forall (fun b => 0 <= b < 256) (Sum data).
Proof.
  unfold Sum. destruct (words_bytes (blocks (length (pad (bytes_of_string data)) / 64)
                                            init (pad (bytes_of_string data))))
    as [Hl Hf].
  split; [| done]. by rewrite Hl, blocks_length.
Qed.

End SHA1_facts.

Lemma digest_lower_hex (data : string) : lower_hex 40 (Sprintf_x (SHA1.Sum data)).
Proof.
  destruct (SHA1_facts.Sum_bytes data) as [Hl Hf].
  pose proof (Sprintf_x_lower _ Hf) as Hx. by rewrite Hl in Hx.
Qed.

(** ** HashEngine *)

(** C1. A plain file of content [B] and a zip archive whose single entry
    decompresses to [B] have the same fingerprint: the lowercase
    hexadecimal SHA-1 digest of [B]. *)
Theorem fingerprint_of_file_and_of_archive `{GoRuntime}
    (fs : FileSystem) (B p q : string) (entry : zip_File) :
  strings_ToLower (filepath_Ext p) ≠ ".zip" →
  os_Open fs p = file_of B →
  strings_ToLower (filepath_Ext q) = ".zip" →
  zip_OpenReader fs q = Ok [entry] →
  zf_Open entry = file_of B →
  CalculateFileHash fs p = Ok (Sprintf_x (SHA1.Sum B))
  ∧ CalculateFileHash fs q = Ok (Sprintf_x (SHA1.Sum B))
  ∧ lower_hex 40 (Sprintf_x (SHA1.Sum B)).
Proof.
  intros Hp Hfile Hq Hzip Hentry. unfold CalculateFileHash, calculateZipHash.
  repeat split.
  - apply String.eqb_neq in Hp. by rewrite Hp, Hfile.
  - apply String.eqb_eq in Hq. by rewrite Hq, Hzip, Hentry.
  - apply digest_lower_hex.
  - apply digest_lower_hex.
Qed.

Lemma fingerprint_of_file_and_of_archive_witness :
  @CalculateFileHash sample_runtime sample_fs "roms/game.bin"
  = Ok "a9993e364706816aba3e25717850c26c9cd0d89d"
  ∧ @CalculateFileHash sample_runtime sample_fs "roms/game.ZIP"
    = Ok "a9993e364706816aba3e25717850c26c9cd0d89d"
  ∧ lower_hex 40 "a9993e364706816aba3e25717850c26c9cd0d89d".
Proof.
  apply (@fingerprint_of_file_and_of_archive sample_runtime sample_fs "abc"
           "roms/game.bin" "roms/game.ZIP" sample_entry).
  - vm_compute. discriminate.
  - reflexivity.
  - reflexivity.
  - reflexivity.
  - reflexivity.
Defined.

(** C8. An archive that opens but has no entry gives the empty-archive
    error, never a digest; a digest comes only from an archive with a first
    entry. *)
Theorem empty_archive_is_an_error `{GoRuntime} (fs : FileSystem) (p : string) :
  strings_ToLower (filepath_Ext p) = ".zip" →
  (zip_OpenReader fs p = Ok [] →
   CalculateFileHash fs p = Err ("zip file " +:+ p +:+ " is empty")
   ∧ calculateZipHash fs p = Err ("zip file " +:+ p +:+ " is empty")
   ∧ CalculateFileHash fs p ≠ Ok (Sprintf_x (SHA1.Sum EmptyString)))
  ∧ (∀ digest, CalculateFileHash fs p = Ok digest →
       ∃ entry others data,
         zip_OpenReader fs p = Ok (entry :: others)
         ∧ zf_Open entry = file_of data
         ∧ digest = Sprintf_x (SHA1.Sum data)).
Proof.
  intros Hp. apply String.eqb_eq in Hp.
  unfold CalculateFileHash, calculateZipHash. rewrite Hp. split.
  - intros ->. done.
  - intros digest Hd.
    destruct (zip_OpenReader fs p) as [[| entry others] | e]; try done.
    destruct entry as [name [[data [e |]] | e]]; cbn in Hd; try done.
    exists {| zf_Name := name; zf_Open := file_of data |}, others, data.
    by inversion Hd.
Qed.

Lemma empty_archive_is_an_error_witness :
  @CalculateFileHash sample_runtime sample_fs "roms/empty.zip"
  = Err "zip file roms/empty.zip is empty".
Proof.
  apply (@empty_archive_is_an_error sample_runtime sample_fs "roms/empty.zip");
    reflexivity.
Defined.

(** C10. A path is handled as an archive exactly when its extension,
    lowercased, is [.zip]; with any other extension, [.7z], [.rar] and their
    uppercase forms among them, the bytes of the file itself are hashed. *)
Theorem archive_iff_zip_extension `{GoRuntime} (fs : FileSystem) (p : string) :
  (strings_ToLower (filepath_Ext p) = ".zip" →
   CalculateFileHash fs p = calculateZipHash fs p)
  ∧ (strings_ToLower (filepath_Ext p) ≠ ".zip" →
     (∀ B, os_Open fs p = file_of B →
           CalculateFileHash fs p = Ok (Sprintf_x (SHA1.Sum B)))
     ∧ (∀ e, os_Open fs p = Err e → ∃ msg, CalculateFileHash fs p = Err msg))
  ∧ (filepath_Ext p ∈ [".7z"; ".7Z"; ".rar"; ".RAR"; ".Rar"; ".gz"; ".bin"; ""] →
     strings_ToLower (filepath_Ext p) ≠ ".zip")
  ∧ (filepath_Ext p ∈ [".zip"; ".ZIP"; ".Zip"; ".zIp"] →
     strings_ToLower (filepath_Ext p) = ".zip").
Proof.
  unfold CalculateFileHash. split; [| split; [| split]].
  - intros Hp. apply String.eqb_eq in Hp. by rewrite Hp.
  - intros Hp. apply String.eqb_neq in Hp. rewrite Hp. split.
    + by intros B ->.
    + intros e ->. eauto.
  - intros Hin. repeat (apply elem_of_cons in Hin as [-> | Hin]; [by vm_compute |]).
    by apply elem_of_nil in Hin.
  - intros Hin. repeat (apply elem_of_cons in Hin as [-> | Hin]; [by vm_compute |]).
    by apply elem_of_nil in Hin.
Qed.

Lemma archive_iff_zip_extension_witness :
  @CalculateFileHash sample_runtime sample_fs "roms/game.RAR"
  = Ok (Sprintf_x (SHA1.Sum "abc")).
Proof.
  refine (proj1 (proj1 (proj2 (@archive_iff_zip_extension sample_runtime sample_fs
                                 "roms/game.RAR")) _) "abc" _).
  - vm_compute. discriminate.
  - reflexivity.
Defined.

(** ** Strings *)

Module Str_facts.

Lemma append_cons (x : ascii) (a b : string) :
  String x a +:+ b = String x (a +:+ b).
Proof. reflexivity. Qed.

Lemma append_assoc (a b c : string) : (a +:+ b) +:+ c = a +:+ (b +:+ c).
Proof. induction a as [| x a IH]; [done |]. by rewrite !append_cons, IH. Qed.

Lemma append_nil_r (a : string) : a +:+ EmptyString = a.
Proof. induction a as [| x a IH]; [done |]. by rewrite append_cons, IH. Qed.

Lemma length_append (a b : string) :
  String.length (a +:+ b) = (String.length a + String.length b)%nat.
Proof.
  induction a as [| x a IH]; [done |].
  rewrite append_cons. cbn [String.length]. by rewrite IH.
Qed.

Lemma length_map (f : ascii → ascii) (s : string) :
  String.length (Str.map f s) = String.length s.
Proof. induction s as [| x s IH]; [done |]. cbn. by rewrite IH. Qed.

Lemma all_impl (p q : ascii → bool) (s : string) :
  (∀ c, p c = true → q c = true) → Str.all p s = true → Str.all q s = true.
Proof.
  intros Hpq. induction s as [| x s IH]; [done |]. cbn.
  intros [Hx Hs]%andb_true_iff. by rewrite (Hpq _ Hx), IH.
Qed.

Lemma all_map (p : ascii → bool) (f : ascii → ascii) (s : string) :
  Str.all p (Str.map f s) = Str.all (fun c => p (f c)) s.
Proof. induction s as [| x s IH]; [done |]. cbn. by rewrite IH. Qed.

End Str_facts.

(** ** The pattern matcher *)

Module Regexp_facts.
Import Regexp.

Lemma push_Some (c : ascii) (r : option (list string)) (res : list string) :
  push c r = Some res →
  ∃ seg segs, r = Some (seg :: segs) ∧ res = String c seg :: segs.
Proof. destruct r as [[| seg segs] |]; cbn; intros [= <-]; eauto. Qed.

(** A repetition takes a run of its class, of an allowed length, and the
    continuation matches the rest. *)
Lemma rep_sound (cls : ascii → bool) (lazy : bool)
    (k : string → option (list string)) (s : string) :
  ∀ (lo : nat) (extra : option nat) (res : list string),
    rep cls lazy k lo extra s = Some res →
    ∃ seg segs rest,
      res = seg :: segs ∧ s = seg +:+ rest ∧ k rest = Some segs
      ∧ Str.all cls seg = true
      ∧ (lo ≤ String.length seg)%nat
      ∧ ∀ e, extra = Some e → (String.length seg ≤ lo + e)%nat.
Proof.
  assert (Hstop : ∀ s0 res extra, cons EmptyString <$> k s0 = Some res →
    ∃ seg segs rest,
      res = seg :: segs ∧ s0 = seg +:+ rest ∧ k rest = Some segs
      ∧ Str.all cls seg = true ∧ (0 ≤ String.length seg)%nat
      ∧ ∀ e : nat, extra = Some e → (String.length seg ≤ 0 + e)%nat).
  { intros s0 res extra Hk. destruct (k s0) as [segs |] eqn:Ek; [| done].
    injection Hk as <-. exists EmptyString, segs, s0.
    repeat split; cbn; auto with lia. }
  induction s as [| c t IH]; intros lo extra res Hrep.
  - destruct lo as [| lo']; cbn in Hrep; [| done].
    destruct lazy.
    + apply (Hstop _ _ extra). by destruct (k EmptyString).
    + by apply (Hstop _ _ extra).
  - assert (Hmore :
      (if cls c && may_extend extra
       then push c (rep cls lazy k O (pred <$> extra) t) else None) = Some res →
      ∃ seg segs rest,
        res = seg :: segs ∧ String c t = seg +:+ rest ∧ k rest = Some segs
        ∧ Str.all cls seg = true ∧ (0 ≤ String.length seg)%nat
        ∧ ∀ e : nat, extra = Some e → (String.length seg ≤ 0 + e)%nat).
    { intros Hm. destruct (cls c) eqn:Ec; [| done].
      destruct (may_extend extra) eqn:Ex; [| done]. cbn in Hm.
      apply push_Some in Hm as (seg & segs & Hr & ->).
      apply IH in Hr as (seg' & segs' & rest & [= <- <-] & -> & Hk & Hall & _ & Hhi).
      exists (String c seg), segs, rest. repeat split; cbn; auto with lia.
      - by rewrite Ec, Hall.
      - intros e ->. destruct e as [| e]; [done |].
        specialize (Hhi e eq_refl). lia. }
    destruct lo as [| lo']; cbn [rep] in Hrep.
    + destruct lazy.
      * destruct (k (String c t)) as [segs |] eqn:Ek.
        -- apply (Hstop (String c t) _ extra). by rewrite Ek.
        -- by apply Hmore.
      * destruct (if cls c && may_extend extra then _ else None) as [r |] eqn:Em.
        -- injection Hrep as <-. by apply Hmore.
        -- by apply (Hstop (String c t) _ extra).
    + destruct (cls c) eqn:Ec; [| done].
      apply push_Some in Hrep as (seg & segs & Hr & ->).
      apply IH in Hr as (seg' & segs' & rest & [= <- <-] & -> & Hk & Hall & Hlo & Hhi).
      exists (String c seg), segs, rest. repeat split; cbn; auto with lia.
      * by rewrite Ec, Hall.
      * intros e He. specialize (Hhi e He). lia.
Qed.

Lemma run_sound (re : list piece) :
  ∀ (s : string) (segs : list string),
    run re s = Some segs →
    Forall2 fits re segs ∧ ∃ rest, s = Str.concat segs +:+ rest.
Proof.
  induction re as [| p re IH]; intros s segs Hrun; cbn in Hrun.
  - injection Hrun as <-. split; [constructor | by exists s].
  - apply rep_sound in Hrun
      as (seg & segs' & rest & -> & -> & Hk & Hall & Hlo & Hhi).
    apply IH in Hk as [Hfits [rest' ->]]. split.
    + by constructor.
    + exists rest'. cbn. by rewrite Str_facts.append_assoc.
Qed.

Lemma groups_fits (re : list piece) (segs : list string) :
  Forall2 fits re segs → Forall2 fits (List.filter cap re) (groups re segs).
Proof.
  induction 1 as [| p seg re segs Hp _ IH]; cbn; [constructor |].
  destruct (cap p); [by constructor | done].
Qed.

(** Every submatch slice [FindAllStringSubmatch] returns comes from a
    match of the pattern. *)
Lemma find_all_sound (re : list piece) (s : string) :
  ∀ (skip : nat) (m : list string),
    m ∈ find_all re s skip →
    ∃ s' segs, run re s' = Some segs ∧ m = submatch re segs.
Proof.
  induction s as [| c t IH]; intros skip m Hm; cbn in Hm.
  - by apply elem_of_nil in Hm.
  - destruct skip as [| k]; [| by eapply IH].
    destruct (run re (String c t)) as [segs |] eqn:Erun; [| by eapply IH].
    apply elem_of_cons in Hm as [-> | Hm]; [eauto | by eapply IH].
Qed.

Lemma submatch_groups (re : list piece) (s : string) (m : list string) :
  m ∈ FindAllStringSubmatch re s →
  ∃ whole gs, m = whole :: gs ∧ Forall2 fits (List.filter cap re) gs.
Proof.
  intros (s' & segs & Hrun & ->)%find_all_sound.
  apply run_sound in Hrun as [Hfits _].
  exists (Str.concat segs), (groups re segs). split; [done |].
  by apply groups_fits.
Qed.

(** A pattern that starts with a literal matches no empty string: the rule
    of [FindAllStringSubmatch] for empty matches never applies. *)
Lemma run_nonempty (c : ascii) (re : list piece) (s : string) (segs : list string) :
  run (lit c :: re) s = Some segs → (1 ≤ String.length (Str.concat segs))%nat.
Proof.
  intros [Hfits _]%run_sound.
  apply Forall2_cons_inv_l in Hfits as (seg & segs' & (_ & Hlo & _) & _ & ->).
  cbn in *. rewrite Str_facts.length_append. lia.
Qed.

End Regexp_facts.

(** ** The DAT importers *)

Lemma hexdigit_ascii (c : ascii) : Regexp.hexdigit c = true → is_ascii c = true.
Proof. by destruct c as [[] [] [] [] [] [] [] []]. Qed.

Lemma hexdigit_lower (c : ascii) :
  Regexp.hexdigit c = true → is_lower_hex (lower_ascii c) = true.
Proof. by destruct c as [[] [] [] [] [] [] [] []]. Qed.

(** On a token of hexadecimal digits [strings.ToLower] takes its ASCII
    path, whatever the runtime, and yields lowercase digits. *)
Lemma ToLower_hex `{GoRuntime} (n : nat) (tok : string) :
  String.length tok = n → Str.all Regexp.hexdigit tok = true →
  strings_ToLower tok = Str.map lower_ascii tok
  ∧ lower_hex n (strings_ToLower tok).
Proof.
  intros Hlen Hhex. unfold strings_ToLower.
  rewrite (Str_facts.all_impl _ _ _ hexdigit_ascii Hhex). split; [done |].
  split.
  - by rewrite Str_facts.length_map.
  - rewrite Str_facts.all_map.
    by apply (Str_facts.all_impl _ _ _ hexdigit_lower).
Qed.

Lemma length_pos_nonempty (s : string) : (1 ≤ String.length s)%nat → s ≠ EmptyString.
Proof. destruct s; cbn; [lia | done]. Qed.

(** A loop that appends one record per element. *)
Lemma flat_map_Forall2 {A B} (f : A → list B) (P : A → B → Prop) (l : list A) :
  (∀ x, x ∈ l → ∃ y, f x = [y] ∧ P x y) → Forall2 P l (flat_map f l).
Proof.
  induction l as [| x l IH]; intros Hl; cbn; [constructor |].
  destruct (Hl x) as (y & -> & Hy); [left |]. cbn. constructor; [done |].
  apply IH. intros x' Hx'. apply Hl. by right.
Qed.

Module Romnibus_facts.
Import Regexp Romnibus.

(** The slice of a match: the matched text, a non-empty name, a non-empty
    file-name token, and 40 hexadecimal digits. *)
Lemma romnibus_match_shape (content : string) (m : list string) :
  m ∈ FindAllStringSubmatch gameBlockRegex content →
  ∃ whole name file tok,
    m = [whole; name; file; tok]
    ∧ name ≠ EmptyString ∧ file ≠ EmptyString
    ∧ String.length tok = 40%nat ∧ Str.all hexdigit tok = true.
Proof.
  intros (whole & gs & -> & Hgs)%Regexp_facts.submatch_groups.
  change (List.filter cap gameBlockRegex)
    with [group (plus (non dquote)); group (plus (fun c => negb (space c)));
          group (times 40 hexdigit)] in Hgs.
  apply Forall2_cons_inv_l in Hgs as (name & gs1 & (_ & Hn & _) & Hgs & ->).
  apply Forall2_cons_inv_l in Hgs as (file & gs2 & (_ & Hf & _) & Hgs & ->).
  apply Forall2_cons_inv_l in Hgs as (tok & gs3 & (Hhex & Hlo & Hhi) & Hgs & ->).
  apply Forall2_nil_inv_l in Hgs as ->.
  exists whole, name, file, tok. cbn in *. specialize (Hhi _ eq_refl).
  repeat split; auto using length_pos_nonempty with lia.
Qed.

(** Every match yields exactly one record, built from its groups. *)
Lemma romnibus_gameEntry_match `{GoRuntime} (platform content : string) (m : list string) :
  m ∈ FindAllStringSubmatch gameBlockRegex content →
  ∃ g, gameEntry platform m = [g] ∧ built_from platform m g.
Proof.
  intros (whole & name & file & tok & -> & Hname & Hfile & Hlen & Hhex)%romnibus_match_shape.
  destruct (ToLower_hex 40 tok Hlen Hhex) as [Hlow Hlh].
  eexists. split; [reflexivity |]. unfold built_from, normalized_from. cbn.
  by rewrite <- Hlow.
Qed.

(** [parseDAT] returns one record per match, in the order of the matches. *)
Lemma romnibus_parseDAT_records `{GoRuntime} (fs : FileSystem)
    (filename platform content : string) :
  os_ReadFile fs filename = Ok content →
  ∃ games,
    parseDAT fs filename platform = Ok games
    ∧ Forall2 (built_from platform)
        (FindAllStringSubmatch gameBlockRegex content) games.
Proof.
  intros Hread. unfold parseDAT. rewrite Hread.
  eexists. split; [reflexivity |]. apply flat_map_Forall2.
  intros m Hm. by eapply romnibus_gameEntry_match.
Qed.

End Romnibus_facts.

Module Hashy_facts.
Import Regexp Hashy.

Lemma hashy_match_shape (content : string) (m : list string) :
  m ∈ FindAllStringSubmatch gameBlockRegex content →
  ∃ whole name tok,
    m = [whole; name; tok]
    ∧ name ≠ EmptyString
    ∧ String.length tok = 40%nat ∧ Str.all hexdigit tok = true.
Proof.
  intros (whole & gs & -> & Hgs)%Regexp_facts.submatch_groups.
  change (List.filter cap gameBlockRegex)
    with [group (plus (non dquote)); group (times 40 hexdigit)] in Hgs.
  apply Forall2_cons_inv_l in Hgs as (name & gs1 & (_ & Hn & _) & Hgs & ->).
  apply Forall2_cons_inv_l in Hgs as (tok & gs3 & (Hhex & Hlo & Hhi) & Hgs & ->).
  apply Forall2_nil_inv_l in Hgs as ->.
  exists whole, name, tok. cbn in *. specialize (Hhi _ eq_refl).
  repeat split; auto using length_pos_nonempty with lia.
Qed.

Lemma hashy_gameEntry_match `{GoRuntime} (platform content : string) (m : list string) :
  m ∈ FindAllStringSubmatch gameBlockRegex content →
  ∃ g, gameEntry platform m = [g] ∧ built_from_hashy platform m g.
Proof.
  intros (whole & name & tok & -> & Hname & Hlen & Hhex)%hashy_match_shape.
  destruct (ToLower_hex 40 tok Hlen Hhex) as [Hlow Hlh].
  unfold gameEntry. cbn [length Nat.leb nth].
  assert (Htok : tok ≠ EmptyString) by (apply length_pos_nonempty; lia).
  apply String.eqb_neq in Htok as ->.
  pose proof Hname as ->%String.eqb_neq.
  eexists. split; [reflexivity |]. unfold built_from_hashy, normalized_from. cbn.
  by rewrite <- Hlow.
Qed.

Lemma hashy_parseDAT_records `{GoRuntime} (fs : FileSystem)
    (filename platform content : string) :
  os_ReadFile fs filename = Ok content →
  ∃ games,
    parseDAT fs filename platform = Ok games
    ∧ Forall2 (built_from_hashy platform)
        (FindAllStringSubmatch gameBlockRegex content) games.
Proof.
  intros Hread. unfold parseDAT. rewrite Hread.
  eexists. split; [reflexivity |]. apply flat_map_Forall2.
  intros m Hm. by eapply hashy_gameEntry_match.
Qed.

End Hashy_facts.

(** Every digest [CalculateFileHash] returns is the [%x] form of a SHA-1
    sum. *)
Lemma CalculateFileHash_Ok `{GoRuntime} (fs : FileSystem) (p digest : string) :
  CalculateFileHash fs p = Ok digest →
  ∃ data, digest = Sprintf_x (SHA1.Sum data).
Proof.
  unfold CalculateFileHash, calculateZipHash, io_Copy.
  destruct (String.eqb _ _).
  - destruct (zip_OpenReader fs p) as [[| entry others] | e]; try done.
    destruct (zf_Open entry) as [[data [e |]] | e]; cbn; try done.
    intros [= <-]. eauto.
  - destruct (os_Open fs p) as [[data [e |]] | e]; cbn; try done.
    intros [= <-]. eauto.
Qed.

(** C4. A game block whose captured ROM file-name token begins with a
    double quote still yields its record, with an empty file name and with
    the name, platform and hash of the block. *)
Theorem quoted_rom_name_gives_empty_filename `{GoRuntime}
    (fs : FileSystem) (filename platform content : string)
    (i : nat) (m : list string) (rest : string) :
  os_ReadFile fs filename = Ok content →
  Regexp.FindAllStringSubmatch Romnibus.gameBlockRegex content !! i = Some m →
  nth 2 m EmptyString = String dquote rest →
  ∃ games g,
    Romnibus.parseDAT fs filename platform = Ok games
    ∧ games !! i = Some g
    ∧ Filename g = EmptyString
    ∧ Name g = nth 1 m EmptyString ∧ Name g ≠ EmptyString
    ∧ Platform g = platform
    ∧ Hash g = strings_ToLower (nth 3 m EmptyString) ∧ lower_hex 40 (Hash g).
Proof.
  intros Hread Hm Hquote.
  destruct (Romnibus_facts.romnibus_parseDAT_records fs filename platform content Hread)
    as (games & Hparse & Hall).
  destruct (Forall2_lookup_l _ _ _ i m Hall Hm)
    as (g & Hg & Hname & Hne & Hfile & Hplat & _ & _ & Hhash & _ & Hlh).
  exists games, g. rewrite Hquote in Hfile.
  change (Filename g = EmptyString) in Hfile. by split_and!.
Qed.

Lemma quoted_rom_name_gives_empty_filename_witness :
  ∃ games g,
    @Romnibus.parseDAT sample_runtime dat_fs "Sega - Mega Drive.dat" "Sega - Mega Drive"
    = Ok games
    ∧ games !! 0%nat = Some g
    ∧ Filename g = EmptyString
    ∧ Name g = "Super Game (USA)" ∧ Name g ≠ EmptyString
    ∧ Platform g = "Sega - Mega Drive"
    ∧ Hash g = "deadbeef00112233445566778899aabbccddeeff" ∧ lower_hex 40 (Hash g).
Proof.
  apply (@quoted_rom_name_gives_empty_filename sample_runtime dat_fs
           "Sega - Mega Drive.dat" "Sega - Mega Drive" sample_dat 0
           [ "game (" +:+ String (Str.chr 10) "	name " +:+ String dquote "Super Game (USA)"
             +:+ String dquote (String (Str.chr 10) "	rom ( name ")
             +:+ String dquote "Super Game (USA).bin" +:+ String dquote
               " size 1024 crc 1234ABCD sha1 DEADBEEF00112233445566778899AABBCCDDEEFF )"
             +:+ String (Str.chr 10) ")";
             "Super Game (USA)"; String dquote "Super";
             "DEADBEEF00112233445566778899AABBCCDDEEFF" ] "Super").
  - reflexivity.
  - vm_compute. reflexivity.
  - reflexivity.
Defined.

(** C6. Both importers store, for every game block they match, the matched
    40-digit [sha1] token in lowercase, and every digest
    [CalculateFileHash] returns is 40 lowercase hexadecimal digits. *)
Theorem hashes_are_lowercase_hex `{GoRuntime}
    (fs : FileSystem) (filename platform : string) :
  (∀ content, os_ReadFile fs filename = Ok content →
     ∃ games,
       Romnibus.parseDAT fs filename platform = Ok games
       ∧ Forall2 (fun m g => normalized_from (nth 3 m EmptyString) (Hash g))
           (Regexp.FindAllStringSubmatch Romnibus.gameBlockRegex content) games)
  ∧ (∀ content, os_ReadFile fs filename = Ok content →
     ∃ games,
       Hashy.parseDAT fs filename platform = Ok games
       ∧ Forall2 (fun m g => normalized_from (nth 2 m EmptyString) (Hashy.Hash g))
           (Regexp.FindAllStringSubmatch Hashy.gameBlockRegex content) games)
  ∧ (∀ digest, CalculateFileHash fs filename = Ok digest → lower_hex 40 digest).
Proof.
  split; [| split].
  - intros content Hread.
    destruct (Romnibus_facts.romnibus_parseDAT_records fs filename platform content Hread)
      as (games & Hparse & Hall).
    exists games. split; [done |].
    eapply Forall2_impl; [exact Hall |]. by intros m g (_ & _ & _ & _ & Hn).
  - intros content Hread.
    destruct (Hashy_facts.hashy_parseDAT_records fs filename platform content Hread)
      as (games & Hparse & Hall).
    exists games. split; [done |].
    eapply Forall2_impl; [exact Hall |]. by intros m g (_ & _ & _ & Hn).
  - intros digest (data & ->)%CalculateFileHash_Ok. apply digest_lower_hex.
Qed.

Lemma hashes_are_lowercase_hex_witness :
  ∃ games,
    @Romnibus.parseDAT sample_runtime dat_fs "Sega - Mega Drive.dat" "Sega - Mega Drive"
    = Ok games
    ∧ Forall2 (fun m g => @normalized_from sample_runtime (nth 3 m EmptyString) (Hash g))
        (Regexp.FindAllStringSubmatch Romnibus.gameBlockRegex sample_dat) games.
Proof.
  apply (proj1 (@hashes_are_lowercase_hex sample_runtime dat_fs
                  "Sega - Mega Drive.dat" "Sega - Mega Drive") sample_dat).
  reflexivity.
Defined.

(** ** [strings.TrimSpace] and [parseFilename] *)

Module Trim_facts.

Ltac bool_arith :=
  unfold asciiSpace, space2, space3 in *; cbn zeta in *;
  repeat match goal with
         | |- _ = false => apply not_true_iff_false; intro
         | H : _ = false |- _ => apply not_true_iff_false in H
         end;
  rewrite ?andb_true_iff, ?orb_true_iff, ?Z.eqb_eq, ?Z.leb_le in *;
  try lia.

Lemma space2_not_ascii (c1 c2 : ascii) :
  space2 c1 c2 = true → asciiSpace c1 = false.
Proof. intros. bool_arith. Qed.

Lemma space3_not_others (c1 c2 c3 : ascii) :
  space3 c1 c2 c3 = true → asciiSpace c1 = false ∧ space2 c1 c2 = false.
Proof. intros. split; bool_arith. Qed.

Lemma rev_app_spec (a acc : string) :
  String.rev_app a acc = String.rev a +:+ acc.
Proof.
  unfold String.rev. revert acc.
  induction a as [| c a IH]; intros acc; [done |]. cbn [String.rev_app].
  rewrite IH, (IH (String c EmptyString)). by rewrite Str_facts.append_assoc.
Qed.

Lemma rev_cons (c : ascii) (s : string) :
  String.rev (String c s) = String.rev s +:+ String c EmptyString.
Proof. unfold String.rev at 1. cbn [String.rev_app]. apply rev_app_spec. Qed.

Lemma rev_append (a b : string) :
  String.rev (a +:+ b) = String.rev b +:+ String.rev a.
Proof.
  induction a as [| c a IH].
  - by rewrite Str_facts.append_nil_r.
  - rewrite Str_facts.append_cons, !rev_cons, IH.
    by rewrite Str_facts.append_assoc.
Qed.

Lemma rev_involutive (s : string) : String.rev (String.rev s) = s.
Proof.
  induction s as [| c s IH]; [done |]. by rewrite rev_cons, rev_append, IH.
Qed.

Lemma rev_nil_inv (s : string) : String.rev s = EmptyString → s = EmptyString.
Proof. intros Hs. by rewrite <- (rev_involutive s), Hs. Qed.

Lemma blank_append (a b : string) : blank a → blank b → blank (a +:+ b).
Proof.
  induction 1; intros Hb; rewrite ?Str_facts.append_cons;
    [done | apply blank_1 | apply blank_2 | apply blank_3]; auto.
Qed.

Lemma TrimLeftSpace_blank (s : string) : blank s → TrimLeftSpace s = EmptyString.
Proof.
  induction 1 as [| c s Hc _ IH | c1 c2 s Hc _ IH | c1 c2 c3 s Hc _ IH];
    cbn [TrimLeftSpace]; [done | by rewrite Hc | |].
  - by rewrite (space2_not_ascii _ _ Hc), Hc.
  - destruct (space3_not_others _ _ _ Hc) as [-> ->]. by rewrite Hc.
Qed.

(** What [TrimLeftSpace] removes is blank, and what it leaves is left
    alone by a second pass. *)
Lemma TrimLeftSpace_spec (n : nat) :
  ∀ s, (String.length s ≤ n)%nat →
       (∃ b, blank b ∧ s = b +:+ TrimLeftSpace s)
       ∧ TrimLeftSpace (TrimLeftSpace s) = TrimLeftSpace s.
Proof.
  induction n as [| n IH]; intros s Hn.
  { destruct s; [| cbn in Hn; lia]. split; [| done].
    exists EmptyString. split; [constructor | done]. }
  assert (Hkeep : ∀ u, TrimLeftSpace u = u →
            (∃ b, blank b ∧ u = b +:+ u) ∧ TrimLeftSpace u = u).
  { intros u Hu. split; [| done]. exists EmptyString. split; [constructor | done]. }
  destruct s as [| c1 t1]; [by apply (Hkeep EmptyString) |].
  cbn [String.length] in Hn.
  cbn [TrimLeftSpace]. destruct (asciiSpace c1) eqn:E1.
  { destruct (IH t1) as [(b & Hb & Ht) Hi]; [lia |]. split; [| done].
    exists (String c1 b). split; [by constructor |].
    by rewrite Str_facts.append_cons, <- Ht. }
  destruct t1 as [| c2 t2].
  { apply Hkeep. cbn [TrimLeftSpace]. by rewrite E1. }
  cbn [String.length] in Hn. destruct (space2 c1 c2) eqn:E2.
  { destruct (IH t2) as [(b & Hb & Ht) Hi]; [lia |]. split; [| done].
    exists (String c1 (String c2 b)). split; [by constructor |].
    by rewrite !Str_facts.append_cons, <- Ht. }
  destruct t2 as [| c3 t3].
  { apply Hkeep. cbn [TrimLeftSpace]. by rewrite E1, E2. }
  cbn [String.length] in Hn. destruct (space3 c1 c2 c3) eqn:E3.
  { destruct (IH t3) as [(b & Hb & Ht) Hi]; [lia |]. split; [| done].
    exists (String c1 (String c2 (String c3 b))). split; [by constructor |].
    by rewrite !Str_facts.append_cons, <- Ht. }
  apply Hkeep. cbn [TrimLeftSpace]. by rewrite E1, E2, E3.
Qed.

Lemma TrimLeftSpace_nil (s : string) : TrimLeftSpace s = EmptyString ↔ blank s.
Proof.
  split; [| apply TrimLeftSpace_blank].
  intros Hs. destruct (TrimLeftSpace_spec (String.length s) s) as [(b & Hb & E) _];
    [done |].
  rewrite Hs, Str_facts.append_nil_r in E. by subst.
Qed.

(** The scan from the end removes a blank suffix. *)
Lemma TrimRightSpace_rev_nil (n : nat) :
  ∀ r, (String.length r ≤ n)%nat →
       TrimRightSpace_rev r = EmptyString → blank (String.rev r).
Proof.
  induction n as [| n IH]; intros r Hn Hr.
  { destruct r; [constructor | cbn in Hn; lia]. }
  destruct r as [| c1 t1]; [constructor |].
  cbn [String.length] in Hn. cbn [TrimRightSpace_rev] in Hr.
  destruct (asciiSpace c1) eqn:E1.
  { rewrite rev_cons. apply blank_append; [apply IH; [lia | done] |].
    by repeat constructor. }
  destruct t1 as [| c2 t2]; [done |].
  cbn [String.length] in Hn. destruct (space2 c2 c1) eqn:E2.
  { rewrite !rev_cons, Str_facts.append_assoc.
    apply blank_append; [apply IH; [lia | done] |].
    rewrite Str_facts.append_cons. by repeat constructor. }
  destruct t2 as [| c3 t3]; [done |].
  cbn [String.length] in Hn. destruct (space3 c3 c2 c1) eqn:E3; [| done].
  rewrite !rev_cons, !Str_facts.append_assoc.
  apply blank_append; [apply IH; [lia | done] |].
  rewrite !Str_facts.append_cons. by repeat constructor.
Qed.

(** [strings.TrimSpace] returns the empty string exactly on blank
    strings. *)
Lemma TrimSpace_nil (s : string) : strings_TrimSpace s = EmptyString ↔ blank s.
Proof.
  unfold strings_TrimSpace, TrimRightSpace. split.
  - intros Hs%rev_nil_inv.
    apply (TrimRightSpace_rev_nil _ _ (le_n _)) in Hs.
    rewrite rev_involutive in Hs. apply TrimLeftSpace_blank in Hs.
    destruct (TrimLeftSpace_spec (String.length s) s) as [_ Hi]; [done |].
    rewrite Hi in Hs. by apply TrimLeftSpace_nil.
  - intros Hs. by rewrite (TrimLeftSpace_blank _ Hs).
Qed.

End Trim_facts.

Module Filename_facts.
Import Trim_facts.

Lemma IndexByte_ge (s : string) (c : ascii) : -1 <= strings_IndexByte s c.
Proof.
  induction s as [| a s IH]; cbn [strings_IndexByte]; [lia |].
  destruct (Ascii.eqb a c); [lia |].
  destruct (Z.eqb_spec (strings_IndexByte s c) (-1)); lia.
Qed.

(** The index of the first occurrence. *)
Lemma IndexByte_first (pre rest : string) (c : ascii) :
  strings_IndexByte pre c = -1 →
  strings_IndexByte (pre +:+ String c rest) c = Z.of_nat (String.length pre).
Proof.
  induction pre as [| a pre IH]; intros Hpre.
  - change (strings_IndexByte (String c rest) c = 0).
    cbn [strings_IndexByte]. by rewrite Ascii.eqb_refl.
  - rewrite Str_facts.append_cons. cbn [strings_IndexByte String.length] in *.
    destruct (Ascii.eqb a c); [lia |].
    pose proof (IndexByte_ge pre c).
    destruct (Z.eqb_spec (strings_IndexByte pre c) (-1)) as [E |]; [| lia].
    rewrite (IH E).
    destruct (Z.eqb_spec (Z.of_nat (String.length pre)) (-1)); lia.
Qed.

Lemma take_append (a b : string) : Str.take (String.length a) (a +:+ b) = a.
Proof.
  induction a as [| x a IH]; [by destruct b |].
  rewrite Str_facts.append_cons. cbn. by rewrite IH.
Qed.

Lemma drop_append (a b : string) : Str.drop (String.length a) (a +:+ b) = b.
Proof. induction a as [| x a IH]; [by destruct b |]. by rewrite Str_facts.append_cons. Qed.

Lemma take_drop (n : nat) (s : string) : Str.take n s +:+ Str.drop n s = s.
Proof.
  revert s. induction n as [| n IH]; intros [| c s]; try done.
  cbn [Str.take Str.drop]. by rewrite Str_facts.append_cons, IH.
Qed.

Lemma TrimSuffix_append (stem suf : string) :
  strings_TrimSuffix (stem +:+ suf) suf = stem.
Proof.
  unfold strings_TrimSuffix, strings_HasSuffix.
  rewrite Str_facts.length_append.
  replace (String.length stem + String.length suf - String.length suf)%nat
    with (String.length stem) by lia.
  rewrite drop_append, take_append, String.eqb_refl.
  by destruct (Nat.leb_spec (String.length suf) (String.length stem + String.length suf));
    [| lia].
Qed.

Lemma HasSuffix_inv (s suf : string) :
  strings_HasSuffix s suf = true → ∃ stem, s = stem +:+ suf.
Proof.
  unfold strings_HasSuffix.
  generalize (String.length s - String.length suf)%nat. intros n.
  intros [_ E%String.eqb_eq]%andb_true_iff.
  exists (Str.take n s). by rewrite <- E, take_drop.
Qed.

(** A file name ending in [.dat] has the extension [.dat]. *)
Lemma Ext_dat (stem : string) : filepath_Ext (stem +:+ ".dat") = ".dat".
Proof. unfold filepath_Ext. by rewrite rev_append. Qed.

Lemma TrimSuffix_dat_Ext (filename : string) :
  filepath_Ext filename = ".dat" ∨ filepath_Ext filename = EmptyString →
  strings_TrimSuffix filename ".dat"
  = strings_TrimSuffix filename (filepath_Ext filename).
Proof.
  intros [-> | E]; [done |]. rewrite E.
  unfold strings_TrimSuffix at 1.
  destruct (strings_HasSuffix filename ".dat") eqn:Hs.
  - apply HasSuffix_inv in Hs as [stem ->]. by rewrite Ext_dat in E.
  - symmetry. rewrite <- (Str_facts.append_nil_r filename) at 1.
    apply TrimSuffix_append.
Qed.

Lemma parseFilename_paren (pre rest : string) :
  strings_IndexByte pre "(" = -1 →
  parseFilename (pre +:+ String "(" rest) = strings_TrimSpace pre.
Proof.
  intros Hpre. unfold parseFilename. rewrite (IndexByte_first _ _ _ Hpre).
  destruct (Z.eqb_spec (Z.of_nat (String.length pre)) (-1)); [lia |].
  rewrite Nat2Z.id, take_append. by destruct (_ =? _).
Qed.

Lemma parseFilename_no_paren (filename : string) :
  strings_IndexByte filename "(" = -1 →
  parseFilename filename = strings_TrimSpace (strings_TrimSuffix filename ".dat").
Proof. intros Hf. unfold parseFilename. by rewrite Hf. Qed.

Lemma IndexByte_split (s : string) (c : ascii) :
  strings_IndexByte s c ≠ -1 →
  ∃ pre rest, s = pre +:+ String c rest ∧ strings_IndexByte pre c = -1.
Proof.
  induction s as [| a s IH]; cbn [strings_IndexByte]; [done |].
  destruct (Ascii.eqb_spec a c) as [-> | Hac].
  - intros _. by exists EmptyString, s.
  - destruct (Z.eqb_spec (strings_IndexByte s c) (-1)) as [| Hne]; [done |].
    intros _. destruct (IH Hne) as (pre & rest & -> & Hpre).
    exists (String a pre), rest. split; [done |]. cbn [strings_IndexByte].
    apply Ascii.eqb_neq in Hac. by rewrite Hac, Hpre.
Qed.

End Filename_facts.

(** C7, as the code has it.  [parseFilename] follows the specification
    on every file name that contains an opening parenthesis, that has the
    extension [.dat], or that has no extension: it returns the part before
    the first parenthesis, or else the name without its [.dat], trimmed. *)
Theorem parseFilename_amended (filename : string) :
  (strings_IndexByte filename "(" ≠ -1
   ∨ filepath_Ext filename = ".dat" ∨ filepath_Ext filename = EmptyString →
   parseFilename filename = platform_per_spec filename)
  ∧ (∀ pre rest, strings_IndexByte pre "(" = -1 →
       filename = pre +:+ String "(" rest →
       parseFilename filename = strings_TrimSpace pre)
  ∧ (∀ stem, strings_IndexByte filename "(" = -1 →
       filename = stem +:+ ".dat" →
       parseFilename filename = strings_TrimSpace stem).
Proof.
  split; [| split].
  - unfold platform_per_spec.
    destruct (Z.eqb_spec (strings_IndexByte filename "(") (-1)) as [E | Hne].
    + intros [? | Hext]; [done |].
      rewrite (Filename_facts.parseFilename_no_paren _ E).
      by rewrite Filename_facts.TrimSuffix_dat_Ext.
    + intros _. destruct (Filename_facts.IndexByte_split _ _ Hne)
        as (pre & rest & -> & Hpre).
      rewrite (Filename_facts.parseFilename_paren _ _ Hpre).
      rewrite (Filename_facts.IndexByte_first _ _ _ Hpre).
      by rewrite Nat2Z.id, Filename_facts.take_append.
  - intros pre rest Hpre ->. by apply Filename_facts.parseFilename_paren.
  - intros stem Hf ->. rewrite (Filename_facts.parseFilename_no_paren _ Hf).
    by rewrite Filename_facts.TrimSuffix_append.
Qed.

Lemma parseFilename_amended_witness :
  parseFilename "Nintendo - Game Boy (20200101).dat" = "Nintendo - Game Boy"
  ∧ parseFilename "Sega - Mega Drive.dat" = "Sega - Mega Drive".
Proof.
  split.
  - apply (proj1 (proj2 (parseFilename_amended "Nintendo - Game Boy (20200101).dat"))
             "Nintendo - Game Boy " "20200101).dat"); reflexivity.
  - apply (proj2 (proj2 (parseFilename_amended "Sega - Mega Drive.dat"))
             "Sega - Mega Drive"); reflexivity.
Defined.

(** C7 as stated fails: an extension other than [.dat] is not removed. *)
Lemma parseFilename_keeps_other_extensions :
  parseFilename "notes.txt" = "notes.txt"
  ∧ platform_per_spec "notes.txt" = "notes"
  ∧ parseFilename "notes.txt" ≠ platform_per_spec "notes.txt".
Proof. by vm_compute. Qed.

(** ** The JSON importer *)

Module Json_facts.
Import JsonImport.

Lemma nonempty_spec (s : string) : nonempty s = true ↔ s ≠ EmptyString.
Proof.
  unfold nonempty. destruct (String.eqb_spec s EmptyString); split; try done.
Qed.

Lemma platforms_fold (sigs : list SignatureDataObject) :
  ∀ init : gset string,
    fold_left (fun platforms sig =>
                 if nonempty (sig_Platform sig)
                 then {[sig_Platform sig]} ∪ platforms else platforms) sigs init
    = init ∪ list_to_set (List.filter nonempty (List.map sig_Platform sigs)).
Proof.
  induction sigs as [| sig sigs IH]; intros init; cbn [fold_left List.map List.filter].
  - by rewrite list_to_set_nil, (right_id_L ∅ (∪)).
  - rewrite IH. destruct (nonempty (sig_Platform sig)); [| done].
    rewrite list_to_set_cons, (assoc_L (∪)). f_equal. apply (comm_L (∪)).
Qed.

(** The map [platforms] holds the distinct non-empty platforms. *)
Lemma platform_set_spec (data : GameFile) :
  platform_set (first_platform data) (SignatureDataObjects data)
  = list_to_set (distinct_platforms data).
Proof.
  unfold platform_set, distinct_platforms, first_platform.
  rewrite platforms_fold. apply set_eq. intros x.
  rewrite elem_of_union, !elem_of_list_to_set, elem_of_remove_dups.
  split; [| by right]. intros [Hx | Hx]; [| done].
  destruct (SignatureDataObjects data) as [| sig sigs]; cbn in *; [set_solver |].
  destruct (nonempty (sig_Platform sig)); [| set_solver].
  apply elem_of_singleton in Hx as ->. left.
Qed.

Lemma platform_set_size (data : GameFile) :
  size (platform_set (first_platform data) (SignatureDataObjects data))
  = length (distinct_platforms data).
Proof.
  rewrite platform_set_spec. apply size_list_to_set, NoDup_remove_dups.
Qed.

Lemma distinct_platforms_nonempty (data : GameFile) (x : string) :
  x ∈ distinct_platforms data → x ≠ EmptyString.
Proof.
  unfold distinct_platforms. rewrite elem_of_remove_dups, list_elem_of_In.
  intros [_ Hx]%filter_In. by apply nonempty_spec.
Qed.

(** The order in which the platforms are visited. *)
Lemma range_platforms `{GoRuntime} (data : GameFile) :
  map_range (platform_set (first_platform data) (SignatureDataObjects data))
  ≡ₚ distinct_platforms data.
Proof.
  rewrite map_range_perm, platform_set_spec.
  apply elements_list_to_set, NoDup_remove_dups.
Qed.

(** [ProcessFile] on a decoded document, by the number of platforms. *)
Lemma process_spec `{GoRuntime} (filename : string) (data : GameFile) :
  let game :=
    {| Name := gf_Name data;
       Filename := strings_TrimSuffix filename (filepath_Ext filename);
       Platform := first_platform data;
       ROMs := Deduplicate (flat_map attr_roms (Attributes data)) |} in
  process filename data
  = if (1 <? length (distinct_platforms data))%nat
    then List.map (with_Platform game)
           (map_range (platform_set (first_platform data) (SignatureDataObjects data)))
    else [game].
Proof. unfold process. fold (first_platform data). by rewrite platform_set_size. Qed.

End Json_facts.

(** C3. A document whose signature descriptors enumerate [n > 1]
    distinct non-empty platforms yields [n] records, one per platform,
    with the same name, file name and ROM list. *)
Theorem one_record_per_platform `{GoRuntime} `{JsonImport.Decoder}
    (fs : FileSystem) (filename content : string) (data : JsonImport.GameFile)
    (n : nat) :
  os_ReadFile fs filename = Ok content →
  JsonImport.json_Unmarshal content = Ok data →
  length (distinct_platforms data) = n →
  (1 < n)%nat →
  ∃ games,
    JsonImport.ProcessFile fs filename = Ok games
    ∧ length games = n
    ∧ List.map JsonImport.Platform games ≡ₚ distinct_platforms data
    ∧ NoDup (List.map JsonImport.Platform games)
    ∧ ∀ g, g ∈ games →
        JsonImport.Name g = JsonImport.gf_Name data
        ∧ JsonImport.Filename g = strings_TrimSuffix filename (filepath_Ext filename)
        ∧ JsonImport.ROMs g
          = JsonImport.Deduplicate
              (flat_map JsonImport.attr_roms (JsonImport.Attributes data)).
Proof.
  intros Hread Hjson Hn Hmany. unfold JsonImport.ProcessFile.
  rewrite Hread, Hjson, Json_facts.process_spec, Hn.
  apply Nat.ltb_lt in Hmany as ->. eexists. split; [reflexivity |].
  pose proof (Json_facts.range_platforms data) as Hperm.
  rewrite List.map_map. cbn [JsonImport.with_Platform JsonImport.Platform].
  rewrite List.map_id. split_and!.
  - by rewrite length_map, Hperm.
  - done.
  - rewrite Hperm. apply NoDup_remove_dups.
  - by intros g (plat & -> & _)%list_elem_of_fmap.
Qed.

Lemma one_record_per_platform_witness :
  ∃ games,
    @JsonImport.ProcessFile sample_runtime sample_decoder json_fs "json/pong.json"
    = Ok games
    ∧ length games = 2%nat.
Proof.
  destruct (@one_record_per_platform sample_runtime sample_decoder json_fs
              "json/pong.json" "two platforms" two_platform_doc 2)
    as (games & Hgames & Hlen & _).
  - reflexivity.
  - reflexivity.
  - vm_compute. reflexivity.
  - lia.
  - exists games. split; [exact Hgames | exact Hlen].
Defined.

(** C9, as the code has it.  [parseFilename] yields the empty platform
    exactly when the part of the file name before its first opening
    parenthesis (without one: the file name less a trailing [.dat]) is
    blank; the records of [ProcessFile] all have a platform exactly when
    the first signature descriptor has one or the descriptors enumerate at
    least two distinct platforms. *)
Theorem platform_nonempty_amended `{GoRuntime} `{JsonImport.Decoder} :
  (∀ pre rest, strings_IndexByte pre "(" = -1 →
     (parseFilename (pre +:+ String "(" rest) ≠ EmptyString ↔ ¬ blank pre))
  ∧ (∀ filename, strings_IndexByte filename "(" = -1 →
     (parseFilename filename ≠ EmptyString
      ↔ ¬ blank (strings_TrimSuffix filename ".dat")))
  ∧ (∀ fs filename content data,
       os_ReadFile fs filename = Ok content →
       JsonImport.json_Unmarshal content = Ok data →
       ∃ games,
         JsonImport.ProcessFile fs filename = Ok games
         ∧ (Forall (fun g => JsonImport.Platform g ≠ EmptyString) games
            ↔ first_platform data ≠ EmptyString
              ∨ (1 < length (distinct_platforms data))%nat)).
Proof.
  split_and!.
  - intros pre rest Hpre. rewrite (Filename_facts.parseFilename_paren _ _ Hpre).
    by rewrite Trim_facts.TrimSpace_nil.
  - intros filename Hf. rewrite (Filename_facts.parseFilename_no_paren _ Hf).
    by rewrite Trim_facts.TrimSpace_nil.
  - intros fs filename content data Hread Hjson. unfold JsonImport.ProcessFile.
    rewrite Hread, Hjson, Json_facts.process_spec.
    eexists. split; [reflexivity |].
    destruct (Nat.ltb_spec 1 (length (distinct_platforms data))) as [Hmany | Hfew].
    + split; [by right |]. intros _.
      apply Forall_forall. intros g (plat & -> & Hplat)%list_elem_of_fmap.
      cbn. apply (Json_facts.distinct_platforms_nonempty data).
      by rewrite <- (Json_facts.range_platforms data).
    + rewrite Forall_singleton. cbn. split; [by left |]. intros [? | ?]; [done | lia].
Qed.

Lemma platform_nonempty_amended_witness :
  ¬ (parseFilename " (Japan).dat" ≠ EmptyString).
Proof.
  intros Hne.
  apply (proj1 (proj1 (@platform_nonempty_amended sample_runtime sample_decoder)
                  " " "Japan).dat" eq_refl)) in Hne.
  apply Hne. apply blank_1; [reflexivity | apply blank_nil].
Defined.

(** C9 as stated fails: a DAT file whose name starts with a parenthesis,
    and a document without signature descriptors, give an empty platform. *)
Lemma platform_can_be_empty :
  parseFilename "(Japan).dat" = EmptyString
  ∧ List.map JsonImport.Platform (@JsonImport.process sample_runtime "json/unsigned.json" unsigned_doc)
    = [EmptyString]
  ∧ ∃ games,
      @JsonImport.ProcessFile sample_runtime sample_decoder json_fs "json/unsigned.json"
      = Ok games
      ∧ ¬ Forall (fun g => JsonImport.Platform g ≠ EmptyString) games.
Proof.
  split; [reflexivity |]. split; [reflexivity |].
  eexists. split; [reflexivity |]. by intros Hall%Forall_inv.
Qed.

(** ** The catalogue *)

Lemma lower_ascii_idemp (c : ascii) : lower_ascii (lower_ascii c) = lower_ascii c.
Proof. by destruct c as [[] [] [] [] [] [] [] []]. Qed.

Lemma sqlite_LOWER_idemp (s : string) : sqlite_LOWER (sqlite_LOWER s) = sqlite_LOWER s.
Proof.
  unfold sqlite_LOWER. induction s as [| c s IH]; [done |].
  cbn. by rewrite lower_ascii_idemp, IH.
Qed.

(** The query compares the lowercase forms only. *)
Lemma FindByHash_LOWER (db : option sql_DB) (h1 h2 : string) :
  sqlite_LOWER h1 = sqlite_LOWER h2 → FindByHash db h1 = FindByHash db h2.
Proof. intros E. unfold FindByHash, select_by_hash. by rewrite E. Qed.

Lemma select_by_hash_first (before after : list Row) (r : Row) (hash h : string) :
  row_hash r = Some h → sqlite_LOWER h = sqlite_LOWER hash →
  (∀ r' h', r' ∈ before → row_hash r' = Some h' →
            sqlite_LOWER h' ≠ sqlite_LOWER hash) →
  select_by_hash (before ++ r :: after) hash = Some r.
Proof.
  intros Hr Hh Hbefore. unfold select_by_hash.
  induction before as [| r' before IH]; cbn.
  - by rewrite Hr, Hh, String.eqb_refl.
  - destruct (row_hash r') as [h' |] eqn:Er'.
    + destruct (String.eqb_spec (sqlite_LOWER h') (sqlite_LOWER hash)) as [E |].
      * exfalso. by apply (Hbefore r' h'); [left | |].
      * apply IH. intros r'' h'' Hin. apply Hbefore. by right.
    + apply IH. intros r'' h'' Hin. apply Hbefore. by right.
Qed.

Lemma select_by_hash_none (rows : list Row) (hash : string) :
  (∀ r h, r ∈ rows → row_hash r = Some h → sqlite_LOWER h ≠ sqlite_LOWER hash) →
  select_by_hash rows hash = None.
Proof.
  intros Hrows. unfold select_by_hash.
  induction rows as [| r rows IH]; cbn; [done |].
  destruct (row_hash r) as [h |] eqn:Er.
  - destruct (String.eqb_spec (sqlite_LOWER h) (sqlite_LOWER hash)) as [E |].
    + exfalso. by apply (Hrows r h); [left | |].
    + apply IH. intros r' h' Hin. apply Hrows. by right.
  - apply IH. intros r' h' Hin. apply Hrows. by right.
Qed.

(** C5. [FindByHash] compares hashes without regard to letter case,
    returns the first matching row in storage order, returns no record and
    no error when no row matches, and fails on a nil handle. *)
Theorem FindByHash_contract `{GoRuntime} (db : option sql_DB) (hash : string) :
  FindByHash db (sqlite_LOWER hash) = FindByHash db hash
  ∧ (Str.all is_ascii hash = true →
     FindByHash db (strings_ToLower hash) = FindByHash db hash)
  ∧ (db = None → FindByHash db hash = Err "database is not initialized")
  ∧ (∀ conn rows,
       db = Some conn → games conn = Ok rows →
       (∀ r h, r ∈ rows → row_hash r = Some h →
               sqlite_LOWER h ≠ sqlite_LOWER hash) →
       FindByHash db hash = Ok None)
  ∧ (∀ conn before r after h,
       db = Some conn → games conn = Ok (before ++ r :: after) →
       row_hash r = Some h → sqlite_LOWER h = sqlite_LOWER hash →
       (∀ r' h', r' ∈ before → row_hash r' = Some h' →
                 sqlite_LOWER h' ≠ sqlite_LOWER hash) →
       FindByHash db hash
       = Ok (Some {| Name := row_name r; Filename := row_filename r;
                     Platform := row_platform r; Hash := h |})).
Proof.
  split_and!.
  - apply FindByHash_LOWER, sqlite_LOWER_idemp.
  - intros Hascii. apply FindByHash_LOWER. unfold strings_ToLower.
    rewrite Hascii. apply sqlite_LOWER_idemp.
  - by intros ->.
  - intros conn rows -> Hrows Hnone. unfold FindByHash.
    by rewrite Hrows, select_by_hash_none.
  - intros conn before r after h -> Hrows Hr Hh Hbefore. unfold FindByHash.
    rewrite Hrows, (select_by_hash_first _ _ _ _ _ Hr Hh Hbefore).
    unfold Scan. by rewrite Hr.
Qed.

Lemma FindByHash_contract_witness :
  @FindByHash sample_db "DEADBEEF00112233445566778899AABBCCDDEEFF"
  = Ok (Some {| Name := "Super Game (USA)"; Filename := EmptyString;
                Platform := "Sega - Mega Drive";
                Hash := "DEADBEEF00112233445566778899aabbccddeeff" |}).
Proof.
  refine (proj2 (proj2 (proj2 (proj2
            (@FindByHash_contract sample_runtime sample_db
               "DEADBEEF00112233445566778899AABBCCDDEEFF"))))
            {| games := Ok sample_rows |}
            [ {| row_name := "Other"; row_filename := "other.bin";
                 row_platform := "Sega - Mega Drive";
                 row_hash := Some "0123456789abcdef0123456789abcdef01234567" |} ]
            _ _ _ eq_refl eq_refl eq_refl eq_refl _).
  intros r' h' Hin Hh'. apply list_elem_of_singleton in Hin. subst r'.
  injection Hh' as <-. vm_compute. discriminate.
Defined.

(** ** De-duplication *)

Module Dedup_facts.
Import JsonImport.

Section loop.
Context {A K : Type} `{EqDecision K}.

Lemma filter_ext_in (P1 P2 : A → Prop)
    `{∀ x, Decision (P1 x)} `{∀ x, Decision (P2 x)} (l : list A) :
  (∀ x, x ∈ l → (P1 x ↔ P2 x)) → filter P1 l = filter P2 l.
Proof.
  induction l as [| x l IH]; intros Hl; [done |].
  rewrite !filter_cons, IH by (intros y Hy; apply Hl; by right).
  destruct (decide (P1 x)) as [H1 | H1], (decide (P2 x)) as [H2 | H2];
    try done; exfalso; apply (Hl x) in H1 || apply (Hl x) in H2;
    done || left.
Qed.

Lemma filter_all (P : A → Prop) `{∀ x, Decision (P x)} (l : list A) :
  (∀ x, x ∈ l → P x) → filter P l = l.
Proof.
  induction l as [| x l IH]; intros Hl; [done |].
  rewrite filter_cons_True by (apply Hl; left).
  rewrite IH; [done |]. intros y Hy. apply Hl. by right.
Qed.

Lemma first_occurrences_subset (key : A → K) (l : list A) (x : A) :
  x ∈ first_occurrences key l → x ∈ l.
Proof.
  induction l as [| y l IH]; [done |]. cbn [first_occurrences].
  intros [-> | Hx%list_elem_of_filter]%elem_of_cons; [left | right].
  apply IH, Hx.
Qed.

(** Selecting by key commutes with keeping the first occurrences. *)
Lemma first_occurrences_filter (key : A → K) (P : K → Prop)
    `{∀ k, Decision (P k)} (l : list A) :
  filter (fun y => P (key y)) (first_occurrences key l)
  = first_occurrences key (filter (fun y => P (key y)) l).
Proof.
  induction l as [| x l IH]; [done |]. cbn [first_occurrences].
  rewrite !filter_cons. rewrite list_filter_filter.
  destruct (decide (P (key x))) as [Hx | Hx].
  - cbn [first_occurrences]. f_equal. rewrite <- IH, list_filter_filter.
    apply list_filter_iff. intros y. tauto.
  - rewrite <- IH. apply filter_ext_in. intros y Hy. split; [tauto |].
    intros Hy'. split; [done |]. intros E. by rewrite E in Hy'.
Qed.

End loop.

Lemma first_occurrences_ext {A K K'} `{EqDecision K} `{EqDecision K'}
    (key1 : A → K) (key2 : A → K') (l : list A) :
  (∀ x y, x ∈ l → y ∈ l → (key1 x = key1 y ↔ key2 x = key2 y)) →
  first_occurrences key1 l = first_occurrences key2 l.
Proof.
  induction l as [| x l IH]; intros Hl; [done |]. cbn [first_occurrences].
  rewrite IH by (intros y z Hy Hz; apply Hl; by right). f_equal.
  apply filter_ext_in. intros y Hy%first_occurrences_subset.
  assert (Hyx : key1 y = key1 x ↔ key2 y = key2 x)
    by (apply Hl; [by right | left]).
  unfold not. by rewrite Hyx.
Qed.

(** The loop of the importer, from any state: the records produced so
    far, then the first occurrences of the keys not yet seen. *)
Lemma dedup_loop_spec {A} (key : A → string) (l : list A) :
  ∀ (seen : gset string) (unique : list A),
    dedup_loop key l seen unique
    = unique ++ first_occurrences key (filter (fun y => key y ∉ seen) l).
Proof.
  induction l as [| x l IH]; intros seen unique; cbn [dedup_loop].
  - by rewrite app_nil_r.
  - rewrite filter_cons. destruct (decide (key x ∈ seen)) as [Hx | Hx].
    + destruct (decide (key x ∉ seen)); [done | apply IH].
    + destruct (decide (key x ∉ seen)); [| done].
      rewrite IH, <- app_assoc. cbn [app first_occurrences]. do 2 f_equal.
      pose proof (first_occurrences_filter key (fun k => k ≠ key x)
                    (filter (fun y => key y ∉ seen) l)) as Hf.
      etrans; [| symmetry; exact Hf].
      rewrite list_filter_filter. f_equal.
      apply list_filter_iff. intros y.
      rewrite elem_of_union, elem_of_singleton. tauto.
Qed.

(** The code keeps the first occurrence of each distinct key string. *)
Lemma Deduplicate_spec (roms : list ROM) :
  Deduplicate roms = first_occurrences rom_key roms.
Proof.
  unfold Deduplicate. rewrite dedup_loop_spec. cbn [app]. f_equal.
  apply filter_all. intros ? _. apply not_elem_of_empty.
Qed.

Lemma MergeAndDeduplicate_spec (games : list GameData) :
  MergeAndDeduplicate games = first_occurrences game_key games.
Proof.
  unfold MergeAndDeduplicate. rewrite dedup_loop_spec. cbn [app]. f_equal.
  apply filter_all. intros ? _. apply not_elem_of_empty.
Qed.

(** A field without colon is recovered from the key. *)
Lemma join_inj (a a' b b' : string) :
  colon_free a → colon_free a' →
  a +:+ String ":" b = a' +:+ String ":" b' → a = a' ∧ b = b'.
Proof.
  unfold colon_free. revert a'.
  induction a as [| c a IH]; intros [| c' a'] Ha Ha' E;
    rewrite ?Str_facts.append_cons in E; cbn [strings_IndexByte] in *.
  - by injection E as ->.
  - injection E as <- _. by rewrite Ascii.eqb_refl in Ha'.
  - injection E as -> _. by rewrite Ascii.eqb_refl in Ha.
  - injection E as -> E.
    destruct (Ascii.eqb c' ":"); [done |].
    pose proof (Filename_facts.IndexByte_ge a ":").
    pose proof (Filename_facts.IndexByte_ge a' ":").
    destruct (Z.eqb_spec (strings_IndexByte a ":") (-1)); [| lia].
    destruct (Z.eqb_spec (strings_IndexByte a' ":") (-1)); [| lia].
    destruct (IH a') as [-> ->]; done.
Qed.

Lemma rom_key_inj (r r' : ROM) :
  colon_free (Crc r) ∧ colon_free (Md5 r) ∧ colon_free (Sha1 r) →
  colon_free (Crc r') ∧ colon_free (Md5 r') ∧ colon_free (Sha1 r') →
  (rom_key r = rom_key r' ↔ digests r = digests r').
Proof.
  intros (H1 & H2 & H3) (H1' & H2' & H3'). unfold rom_key, digests. split.
  - intros E.
    apply join_inj in E as [-> E]; [| done ..].
    apply join_inj in E as [-> E]; [| done ..].
    apply join_inj in E as [-> ->]; done.
  - by intros [= -> -> -> ->].
Qed.

Lemma game_key_inj (g g' : GameData) :
  colon_free (Name g) ∧ colon_free (Filename g) →
  colon_free (Name g') ∧ colon_free (Filename g') →
  (game_key g = game_key g' ↔ identity g = identity g').
Proof.
  intros (H1 & H2) (H1' & H2'). unfold game_key, identity. split.
  - intros E.
    apply join_inj in E as [-> E]; [| done ..].
    apply join_inj in E as [-> ->]; done.
  - by intros [= -> -> ->].
Qed.

(** On digests that hold no colon, [Deduplicate] keeps exactly the first
    occurrence of each distinct 4-tuple of digests, in order. *)
Lemma Deduplicate_colon_free (roms : list ROM) :
  Forall (fun r => colon_free (Crc r) ∧ colon_free (Md5 r) ∧ colon_free (Sha1 r)) roms →
  Deduplicate roms = first_occurrences digests roms.
Proof.
  intros Hall. rewrite Deduplicate_spec. apply first_occurrences_ext.
  intros x y Hx Hy. rewrite Forall_forall in Hall. apply rom_key_inj; auto.
Qed.

Lemma MergeAndDeduplicate_colon_free (games : list GameData) :
  Forall (fun g => colon_free (Name g) ∧ colon_free (Filename g)) games →
  MergeAndDeduplicate games = first_occurrences identity games.
Proof.
  intros Hall. rewrite MergeAndDeduplicate_spec. apply first_occurrences_ext.
  intros x y Hx Hy. rewrite Forall_forall in Hall. apply game_key_inj; auto.
Qed.

End Dedup_facts.

(** C2 fails on the code: the key joins the fields with colons, so two
    ROMs of different digests, or two games of different name and file
    name, can have the same key, and the second one is dropped although it
    is no duplicate. *)
Theorem dedup_key_collision :
  digests rom_a ≠ digests rom_b
  ∧ JsonImport.Deduplicate [rom_a; rom_b] = [rom_a]
  ∧ first_occurrences digests [rom_a; rom_b] = [rom_a; rom_b]
  ∧ identity game_a ≠ identity game_b
  ∧ JsonImport.MergeAndDeduplicate [game_a; game_b] = [game_a]
  ∧ first_occurrences identity [game_a; game_b] = [game_a; game_b].
Proof. split_and!; by vm_compute. Qed.

(** * Further properties *)

(** ** HashEngine *)

(** X1. [CalculateFileHash] returns a digest exactly when the bytes it is
    to hash can be read in full: those of the file, or for a [.zip] path
    those of the first entry of the archive; the digest is then their
    SHA-1 sum in hexadecimal. *)
Theorem CalculateFileHash_succeeds_iff `{GoRuntime}
    (fs : FileSystem) (p digest : string) :
  CalculateFileHash fs p = Ok digest
  ↔ ∃ data,
      digest = Sprintf_x (SHA1.Sum data)
      ∧ ((strings_ToLower (filepath_Ext p) ≠ ".zip" ∧ os_Open fs p = file_of data)
         ∨ (strings_ToLower (filepath_Ext p) = ".zip"
            ∧ ∃ entry others,
                zip_OpenReader fs p = Ok (entry :: others)
                ∧ zf_Open entry = file_of data)).
Proof.
  unfold CalculateFileHash, calculateZipHash, io_Copy, file_of.
  destruct (String.eqb_spec (strings_ToLower (filepath_Ext p)) ".zip") as [Hz | Hz].
  - split.
    + destruct (zip_OpenReader fs p) as [[| entry others] | e]; [done | | done].
      destruct (zf_Open entry) as [[data [e |]] | e] eqn:Hopen; cbn; try done.
      intros [= <-]. exists data. split; [done |]. right. split; [done |].
      by exists entry, others.
    + intros (data & -> & [[? _] | (_ & entry & others & -> & ->)]); done.
  - split.
    + destruct (os_Open fs p) as [[data [e |]] | e]; cbn; try done.
      intros [= <-]. exists data. split; [done |]. by left.
    + intros (data & -> & [[_ ->] | [? _]]); done.
Qed.

(** X2. For a [.zip] path only the answer of the archive reader counts, and
    of an archive only its first entry: the entries after it, and whether
    the path can be read as a plain file, change nothing. *)
Theorem archive_first_entry_only `{GoRuntime}
    (fs fs' : FileSystem) (p : string) :
  strings_ToLower (filepath_Ext p) = ".zip" →
  same_archive_head (zip_OpenReader fs p) (zip_OpenReader fs' p) →
  CalculateFileHash fs p = CalculateFileHash fs' p.
Proof.
  intros Hz%String.eqb_eq Hsame. unfold CalculateFileHash, calculateZipHash.
  rewrite Hz.
  destruct (zip_OpenReader fs p) as [[| x l] | e],
           (zip_OpenReader fs' p) as [[| y l'] | e']; cbn in Hsame;
    try done; by subst.
Qed.

Lemma archive_first_entry_only_witness :
  @CalculateFileHash sample_runtime sample_fs "roms/game.ZIP"
  = @CalculateFileHash sample_runtime crowded_fs "roms/game.ZIP".
Proof.
  apply (@archive_first_entry_only sample_runtime sample_fs crowded_fs "roms/game.ZIP").
  - reflexivity.
  - reflexivity.
Defined.

(** ** The DAT importers: where the records come from *)

Module Regexp_occurs.
Import Regexp.

Lemma occurs_in_refl (s : string) : occurs_in s s.
Proof. exists EmptyString, EmptyString. by rewrite Str_facts.append_nil_r. Qed.

Lemma occurs_in_trans (a b c : string) : occurs_in a b → occurs_in b c → occurs_in a c.
Proof.
  intros (p1 & q1 & ->) (p2 & q2 & ->). exists (p2 +:+ p1), (q1 +:+ q2).
  by rewrite !Str_facts.append_assoc.
Qed.

Lemma segment_occurs (segs : list string) (seg : string) :
  seg ∈ segs → occurs_in seg (Str.concat segs).
Proof.
  induction segs as [| x segs IH]; [by intros ?%elem_of_nil |].
  intros [-> | Hin]%elem_of_cons; cbn [Str.concat].
  - by exists EmptyString, (Str.concat segs).
  - destruct (IH Hin) as (a & b & ->). exists (x +:+ a), b.
    by rewrite Str_facts.append_assoc.
Qed.

Lemma groups_subset (re : list piece) :
  ∀ (segs : list string) (g : string), g ∈ groups re segs → g ∈ segs.
Proof.
  induction re as [| p re IH]; intros [| seg segs] g; cbn; try by intros ?%elem_of_nil.
  destruct (cap p).
  - intros [-> | Hg]%elem_of_cons; [left | right; by apply IH].
  - intros Hg. right. by apply IH.
Qed.

(** A match is a part of the text that is searched. *)
Lemma find_all_occurs (re : list piece) (s : string) :
  ∀ (skip : nat) (m : list string),
    m ∈ find_all re s skip →
    ∃ segs, m = submatch re segs ∧ Forall2 fits re segs
            ∧ occurs_in (Str.concat segs) s.
Proof.
  induction s as [| c t IH]; intros skip m Hm; cbn in Hm.
  - by apply elem_of_nil in Hm.
  - assert (Htail : ∀ k, m ∈ find_all re t k →
              ∃ segs, m = submatch re segs ∧ Forall2 fits re segs
                      ∧ occurs_in (Str.concat segs) (String c t)).
    { intros k (segs & -> & Hfits & (a & b & ->))%IH.
      exists segs. split; [done |]. split; [done |]. by exists (String c a), b. }
    destruct skip as [| k]; [| by eapply Htail].
    destruct (run re (String c t)) as [segs |] eqn:Erun; [| by eapply Htail].
    apply elem_of_cons in Hm as [-> | Hm]; [| by eapply Htail].
    apply Regexp_facts.run_sound in Erun as [Hfits [rest ->]].
    exists segs. split; [done |]. split; [done |]. by exists EmptyString, rest.
Qed.

(** Every group of a submatch slice is a part of the text. *)
Lemma group_occurs (re : list piece) (s : string) (m : list string) (g : string) :
  m ∈ FindAllStringSubmatch re s → g ∈ m → occurs_in g s.
Proof.
  intros (segs & -> & _ & Hocc)%find_all_occurs Hg.
  apply elem_of_cons in Hg as [-> | Hg]; [done |].
  eapply occurs_in_trans; [| exact Hocc].
  by apply segment_occurs, (groups_subset re).
Qed.

Lemma all_non_IndexByte (c : ascii) (s : string) :
  Str.all (non c) s = true → strings_IndexByte s c = -1.
Proof.
  induction s as [| a s IH]; [done |]. cbn [Str.all strings_IndexByte]. unfold non at 1.
  intros [Ha Hs]%andb_true_iff. apply negb_true_iff in Ha. rewrite Ha.
  by rewrite (IH Hs).
Qed.

End Regexp_occurs.

Module Romnibus_more.
Import Regexp Romnibus.

(** The groups of a match: a name without double quote, a file-name token
    without white space, 40 hexadecimal digits. *)
Lemma match_classes (content : string) (m : list string) :
  m ∈ FindAllStringSubmatch gameBlockRegex content →
  ∃ whole name file tok,
    m = [whole; name; file; tok]
    ∧ name ≠ EmptyString ∧ Str.all (non dquote) name = true
    ∧ file ≠ EmptyString ∧ Str.all (fun c => negb (space c)) file = true
    ∧ hex_token tok.
Proof.
  intros (whole & gs & -> & Hgs)%Regexp_facts.submatch_groups.
  change (List.filter cap gameBlockRegex)
    with [group (plus (non dquote)); group (plus (fun c => negb (space c)));
          group (times 40 hexdigit)] in Hgs.
  apply Forall2_cons_inv_l in Hgs as (name & gs1 & (Hnc & Hn & _) & Hgs & ->).
  apply Forall2_cons_inv_l in Hgs as (file & gs2 & (Hfc & Hf & _) & Hgs & ->).
  apply Forall2_cons_inv_l in Hgs as (tok & gs3 & (Hhex & Hlo & Hhi) & Hgs & ->).
  apply Forall2_nil_inv_l in Hgs as ->.
  exists whole, name, file, tok. cbn in *. specialize (Hhi _ eq_refl).
  unfold hex_token. split_and!; auto using length_pos_nonempty with lia.
Qed.

End Romnibus_more.

(** X3. Every record of [parseDAT] is taken from the text of the file: its
    name occurs there, its file name occurs there unless it is empty, and
    its hash is the lowercase form of 40 hexadecimal digits that occur
    there. *)
Theorem records_come_from_content `{GoRuntime}
    (fs : FileSystem) (filename platform content : string) (games_ : list Game) :
  os_ReadFile fs filename = Ok content →
  Romnibus.parseDAT fs filename platform = Ok games_ →
  ∀ g, g ∈ games_ →
    occurs_in (Name g) content
    ∧ (Filename g = EmptyString ∨ occurs_in (Filename g) content)
    ∧ ∃ tok, hex_token tok ∧ occurs_in tok content
             ∧ Hash g = Str.map lower_ascii tok.
Proof.
  intros Hread Hparse g Hg. unfold Romnibus.parseDAT in Hparse.
  rewrite Hread in Hparse. injection Hparse as <-.
  apply list_elem_of_In, in_flat_map in Hg as (m & Hm%list_elem_of_In & Hg).
  pose proof (Regexp_occurs.group_occurs _ _ _ (nth 1 m EmptyString) Hm) as H1.
  pose proof (Regexp_occurs.group_occurs _ _ _ (nth 2 m EmptyString) Hm) as H2.
  pose proof (Regexp_occurs.group_occurs _ _ _ (nth 3 m EmptyString) Hm) as H3.
  destruct (Romnibus_more.match_classes _ _ Hm)
    as (whole & name & file & tok & -> & _ & _ & _ & _ & Htok).
  destruct (ToLower_hex 40 tok (proj1 Htok) (proj2 Htok)) as [Hlow _].
  apply list_elem_of_In in Hg. cbn [nth] in H1, H2, H3.
  unfold Romnibus.gameEntry in Hg. cbn [length Nat.leb nth] in Hg.
  apply list_elem_of_singleton in Hg as ->. cbn [Name Filename Hash]. split_and!.
  - apply H1. do 1 apply list_elem_of_further. apply list_elem_of_here.
  - destruct (strings_HasPrefix file (String dquote EmptyString)); [by left | right].
    apply H2. do 2 apply list_elem_of_further. apply list_elem_of_here.
  - exists tok. split_and!; [done | | done].
    apply H3. do 3 apply list_elem_of_further. apply list_elem_of_here.
Qed.

Lemma records_come_from_content_witness :
  occurs_in "Other" sample_dat
  ∧ (("game.bin" : string) = EmptyString ∨ occurs_in "game.bin" sample_dat)
  ∧ ∃ tok, hex_token tok ∧ occurs_in tok sample_dat
           ∧ "0123456789abcdef0123456789abcdef01234567" = Str.map lower_ascii tok.
Proof.
  refine (@records_come_from_content sample_runtime dat_fs
           "Sega - Mega Drive.dat" "Sega - Mega Drive" sample_dat
           [ {| Name := "Super Game (USA)"; Filename := EmptyString;
                Platform := "Sega - Mega Drive";
                Hash := "deadbeef00112233445566778899aabbccddeeff" |};
             {| Name := "Other"; Filename := "game.bin";
                Platform := "Sega - Mega Drive";
                Hash := "0123456789abcdef0123456789abcdef01234567" |} ]
           eq_refl _
           {| Name := "Other"; Filename := "game.bin";
              Platform := "Sega - Mega Drive";
              Hash := "0123456789abcdef0123456789abcdef01234567" |} _).
  - vm_compute. reflexivity.
  - apply list_elem_of_further, list_elem_of_here.
Defined.

(** X4. A file in which no 40 hexadecimal digits follow each other yields
    no record, with either importer. *)
Theorem no_digest_no_record `{GoRuntime}
    (fs : FileSystem) (filename platform content : string) :
  os_ReadFile fs filename = Ok content →
  (∀ tok, hex_token tok → ¬ occurs_in tok content) →
  Romnibus.parseDAT fs filename platform = Ok []
  ∧ Hashy.parseDAT fs filename platform = Ok [].
Proof.
  intros Hread Hnone. unfold Romnibus.parseDAT, Hashy.parseDAT. rewrite Hread.
  assert (Hr : Regexp.FindAllStringSubmatch Romnibus.gameBlockRegex content = []).
  { destruct (Regexp.FindAllStringSubmatch Romnibus.gameBlockRegex content)
      as [| m ms] eqn:E; [done |].
    assert (Hm : m ∈ Regexp.FindAllStringSubmatch Romnibus.gameBlockRegex content)
      by (rewrite E; left).
    destruct (Romnibus_more.match_classes _ _ Hm)
      as (whole & name & file & tok & -> & _ & _ & _ & _ & Htok).
    destruct (Hnone tok Htok).
    apply (Regexp_occurs.group_occurs _ _ _ tok Hm).
    do 3 apply list_elem_of_further. apply list_elem_of_here. }
  assert (Hh : Regexp.FindAllStringSubmatch Hashy.gameBlockRegex content = []).
  { destruct (Regexp.FindAllStringSubmatch Hashy.gameBlockRegex content)
      as [| m ms] eqn:E; [done |].
    assert (Hm : m ∈ Regexp.FindAllStringSubmatch Hashy.gameBlockRegex content)
      by (rewrite E; left).
    destruct (Hashy_facts.hashy_match_shape _ _ Hm)
      as (whole & name & tok & -> & _ & Hlen & Hhex).
    destruct (Hnone tok (conj Hlen Hhex)).
    apply (Regexp_occurs.group_occurs _ _ _ tok Hm).
    do 2 apply list_elem_of_further. apply list_elem_of_here. }
  by rewrite Hr, Hh.
Qed.

Lemma no_digest_no_record_witness :
  @Romnibus.parseDAT sample_runtime header_fs "Sega.dat" "Sega" = Ok []
  ∧ @Hashy.parseDAT sample_runtime header_fs "Sega.dat" "Sega" = Ok [].
Proof.
  apply (@no_digest_no_record sample_runtime header_fs "Sega.dat" "Sega"
           "clrmamepro ( name Sega )" eq_refl).
  intros tok [Hlen _] (pre & post & E).
  apply (f_equal String.length) in E.
  rewrite !Str_facts.length_append, Hlen in E. cbn in E. lia.
Defined.

(** X5. On a file it can read [parseDAT] never fails: it returns one record
    per match of the pattern, each with a non-empty name free of double
    quotes, a file name free of white space that does not begin with a
    double quote, and the platform it was called with. *)
Theorem parseDAT_record_invariants `{GoRuntime}
    (fs : FileSystem) (filename platform content : string) :
  os_ReadFile fs filename = Ok content →
  ∃ games_,
    Romnibus.parseDAT fs filename platform = Ok games_
    ∧ length games_
      = length (Regexp.FindAllStringSubmatch Romnibus.gameBlockRegex content)
    ∧ Forall (fun g =>
                Name g ≠ EmptyString
                ∧ strings_IndexByte (Name g) dquote = -1
                ∧ Str.all (fun c => negb (Regexp.space c)) (Filename g) = true
                ∧ strings_HasPrefix (Filename g) (String dquote EmptyString) = false
                ∧ Platform g = platform) games_.
Proof.
  intros Hread. unfold Romnibus.parseDAT. rewrite Hread.
  eexists. split; [reflexivity |].
  pose proof (flat_map_Forall2 (Romnibus.gameEntry platform)
    (fun _ g => Name g ≠ EmptyString
                ∧ strings_IndexByte (Name g) dquote = -1
                ∧ Str.all (fun c => negb (Regexp.space c)) (Filename g) = true
                ∧ strings_HasPrefix (Filename g) (String dquote EmptyString) = false
                ∧ Platform g = platform)
    (Regexp.FindAllStringSubmatch Romnibus.gameBlockRegex content)) as Hall.
  assert (Hf : Forall2 (fun _ g => Name g ≠ EmptyString
                ∧ strings_IndexByte (Name g) dquote = -1
                ∧ Str.all (fun c => negb (Regexp.space c)) (Filename g) = true
                ∧ strings_HasPrefix (Filename g) (String dquote EmptyString) = false
                ∧ Platform g = platform)
             (Regexp.FindAllStringSubmatch Romnibus.gameBlockRegex content)
             (flat_map (Romnibus.gameEntry platform)
                (Regexp.FindAllStringSubmatch Romnibus.gameBlockRegex content))).
  { apply Hall. intros m Hm.
    destruct (Romnibus_more.match_classes _ _ Hm)
      as (whole & name & file & tok & -> & Hn & Hnq & Hf & Hfs & _).
    eexists. split; [reflexivity |]. cbn [Name Filename Platform nth].
    split_and!; [done | by apply Regexp_occurs.all_non_IndexByte | | | done].
    - by destruct (strings_HasPrefix file (String dquote EmptyString)).
    - by destruct (strings_HasPrefix file (String dquote EmptyString)) eqn:E. }
  split.
  - symmetry. by eapply Forall2_length.
  - by eapply Forall2_Forall_r; [exact Hf | apply Forall_true].
Qed.

Lemma parseDAT_record_invariants_witness :
  ∃ games_,
    @Romnibus.parseDAT sample_runtime dat_fs "Sega - Mega Drive.dat" "Sega - Mega Drive"
    = Ok games_
    ∧ length games_ = 2%nat.
Proof.
  destruct (@parseDAT_record_invariants sample_runtime dat_fs
              "Sega - Mega Drive.dat" "Sega - Mega Drive" sample_dat eq_refl)
    as (games_ & Hparse & Hlen & _).
  exists games_. split; [exact Hparse |]. rewrite Hlen. vm_compute. reflexivity.
Defined.

(** ** The catalogue: what the lookups return *)

Lemma select_by_hash_Some (rows : list Row) (hash : string) (r : Row) :
  select_by_hash rows hash = Some r →
  r ∈ rows ∧ ∃ h, row_hash r = Some h ∧ sqlite_LOWER h = sqlite_LOWER hash.
Proof.
  unfold select_by_hash. intros [Hin Hr]%find_some. split; [by apply list_elem_of_In |].
  destruct (row_hash r) as [h |]; [| done].
  exists h. split; [done |]. by apply String.eqb_eq.
Qed.

Lemma select_by_hash_exists (rows : list Row) (hash h : string) (r : Row) :
  r ∈ rows → row_hash r = Some h → sqlite_LOWER h = sqlite_LOWER hash →
  ∃ r', select_by_hash rows hash = Some r'.
Proof.
  intros Hin Hr Hh. unfold select_by_hash.
  destruct (List.find _ rows) as [r' |] eqn:E; [by exists r' |].
  apply list_elem_of_In in Hin. pose proof (find_none _ _ E r Hin) as Hno.
  cbn beta in Hno. by rewrite Hr, Hh, String.eqb_refl in Hno.
Qed.

(** X6. A record [FindByHash] returns is a row of the table whose hash
    equals the argument up to letter case, and [FindByHash] fails only on a
    nil handle or when the query cannot be run: scanning the row it found
    never fails. *)
Theorem FindByHash_sound (db : option sql_DB) (hash : string) :
  (∀ g, FindByHash db hash = Ok (Some g) →
     ∃ conn rows r,
       db = Some conn ∧ games conn = Ok rows ∧ r ∈ rows
       ∧ row_hash r = Some (Hash g) ∧ g = game_of_row r (Hash g)
       ∧ sqlite_LOWER (Hash g) = sqlite_LOWER hash)
  ∧ (∀ msg, FindByHash db hash = Err msg →
       db = None ∨ ∃ conn e, db = Some conn ∧ games conn = Err e).
Proof.
  unfold FindByHash. destruct db as [conn |]; [| split; [done | by left]].
  destruct (games conn) as [rows | e] eqn:Hrows; [| split; [done | right; eauto]].
  destruct (select_by_hash rows hash) as [r |] eqn:Hsel; [| by split].
  apply select_by_hash_Some in Hsel as (Hin & h & Hr & Hh).
  unfold Scan. rewrite Hr. split; [| done].
  intros g [= <-]. exists conn, rows, r. by split_and!.
Qed.

Lemma FindByHash_sound_witness :
  ∃ conn rows r,
    sample_db = Some conn ∧ games conn = Ok rows ∧ r ∈ rows
    ∧ row_hash r = Some "0123456789abcdef0123456789abcdef01234567"
    ∧ sqlite_LOWER "0123456789abcdef0123456789abcdef01234567"
      = sqlite_LOWER "0123456789ABCDEF0123456789abcdef01234567".
Proof.
  destruct (proj1 (FindByHash_sound sample_db "0123456789ABCDEF0123456789abcdef01234567")
              {| Name := "Other"; Filename := "other.bin";
                 Platform := "Sega - Mega Drive";
                 Hash := "0123456789abcdef0123456789abcdef01234567" |} eq_refl)
    as (conn & rows & r & H1 & H2 & H3 & H4 & _ & H6).
  exists conn, rows, r. split_and!; assumption.
Defined.

Lemma FindByFilename_LOWER (db : option sql_DB) (f1 f2 : string) :
  sqlite_LOWER f1 = sqlite_LOWER f2 → FindByFilename db f1 = FindByFilename db f2.
Proof. intros E. unfold FindByFilename, select_by_filename. by rewrite E. Qed.

Lemma select_by_filename_first (before after : list Row) (r : Row) (filename : string) :
  sqlite_LOWER (row_filename r) = sqlite_LOWER filename →
  (∀ r', r' ∈ before → sqlite_LOWER (row_filename r') ≠ sqlite_LOWER filename) →
  select_by_filename (before ++ r :: after) filename = Some r.
Proof.
  intros Hr Hbefore. unfold select_by_filename.
  induction before as [| r' before IH]; cbn.
  - by rewrite Hr, String.eqb_refl.
  - destruct (String.eqb_spec (sqlite_LOWER (row_filename r')) (sqlite_LOWER filename))
      as [E |].
    + exfalso. by apply (Hbefore r'); [left |].
    + apply IH. intros r'' Hin. apply Hbefore. by right.
Qed.

Lemma select_by_filename_none (rows : list Row) (filename : string) :
  (∀ r, r ∈ rows → sqlite_LOWER (row_filename r) ≠ sqlite_LOWER filename) →
  select_by_filename rows filename = None.
Proof.
  intros Hrows. unfold select_by_filename.
  induction rows as [| r rows IH]; cbn; [done |].
  destruct (String.eqb_spec (sqlite_LOWER (row_filename r)) (sqlite_LOWER filename))
    as [E |].
  - exfalso. by apply (Hrows r); [left |].
  - apply IH. intros r' Hin. apply Hrows. by right.
Qed.

(** X7. [FindByFilename] compares file names without regard to letter
    case and answers from the first matching row in storage order: its
    record when the row has a hash, an error when its hash is NULL, even if
    a later row of that name has one; no matching row gives no record and
    no error. *)
Theorem FindByFilename_contract (conn : sql_DB) (filename : string) :
  FindByFilename (Some conn) (sqlite_LOWER filename)
  = FindByFilename (Some conn) filename
  ∧ (∀ rows,
       games conn = Ok rows →
       (∀ r, r ∈ rows → sqlite_LOWER (row_filename r) ≠ sqlite_LOWER filename) →
       FindByFilename (Some conn) filename = Ok None)
  ∧ (∀ before r after,
       games conn = Ok (before ++ r :: after) →
       sqlite_LOWER (row_filename r) = sqlite_LOWER filename →
       (∀ r', r' ∈ before → sqlite_LOWER (row_filename r') ≠ sqlite_LOWER filename) →
       (∀ h, row_hash r = Some h →
             FindByFilename (Some conn) filename = Ok (Some (game_of_row r h)))
       ∧ (row_hash r = None →
          ∃ msg, FindByFilename (Some conn) filename = Err msg)).
Proof.
  split_and!.
  - apply FindByFilename_LOWER, sqlite_LOWER_idemp.
  - intros rows Hrows Hnone. unfold FindByFilename.
    by rewrite Hrows, select_by_filename_none.
  - intros before r after Hrows Hr Hbefore. unfold FindByFilename.
    rewrite Hrows, (select_by_filename_first _ _ _ _ Hr Hbefore). unfold Scan. split.
    + by intros h ->.
    + intros ->. eauto.
Qed.

Lemma FindByFilename_contract_witness :
  ∃ msg, FindByFilename (Some {| games := Ok null_hash_rows |}) "pong.bin" = Err msg.
Proof.
  refine (proj2 (proj2 (proj2 (FindByFilename_contract
            {| games := Ok null_hash_rows |} "pong.bin"))
            [] _ _ eq_refl eq_refl _) eq_refl).
  by intros r' ?%elem_of_nil.
Defined.

(** ** [insertGames] *)

Module Insert_facts.
Import Populate.

Lemma exec_all_Ok (faults : TxFaults) (games_ : list Game) :
  ∀ rows rows',
    exec_all faults games_ rows = Ok rows' →
    rows' = fold_left insert_or_ignore games_ rows.
Proof.
  induction games_ as [| g games_ IH]; intros rows rows'; cbn.
  - by intros [= ->].
  - destruct (exec_err faults g); [done | apply IH].
Qed.

Lemma exec_all_no_faults (games_ : list Game) (rows : list Row) :
  exec_all no_faults games_ rows = Ok (fold_left insert_or_ignore games_ rows).
Proof. revert rows. induction games_ as [| g games_ IH]; intros rows; cbn; [done | apply IH]. Qed.

Lemma conflicts_row_of (g : Game) : conflicts g (row_of g) = true.
Proof. unfold conflicts, row_of. cbn. by rewrite !String.eqb_refl. Qed.

Lemma conflicts_key (g : Game) (r : Row) :
  conflicts g r = true ↔ row_key r = Some (Filename g, Hash g).
Proof.
  unfold conflicts, row_key. destruct (row_hash r) as [h |]; cbn.
  - rewrite andb_true_iff, !String.eqb_eq. split; [by intros [-> ->] | by intros [= -> ->]].
  - rewrite andb_false_r. by split.
Qed.

(** One statement adds at most the row of its game, after the others. *)
Lemma insert_or_ignore_app (rows : list Row) (g : Game) :
  insert_or_ignore rows g
  = rows ++ (if existsb (conflicts g) rows then [] else [row_of g]).
Proof.
  unfold insert_or_ignore. destruct (existsb _ rows); [by rewrite app_nil_r | done].
Qed.

Lemma fold_insert_app (games_ : list Game) :
  ∀ rows, ∃ added,
    fold_left insert_or_ignore games_ rows = rows ++ added
    ∧ added `sublist_of` (row_of <$> games_).
Proof.
  induction games_ as [| g games_ IH]; intros rows; cbn [fold_left].
  - exists []. by rewrite app_nil_r.
  - destruct (IH (insert_or_ignore rows g)) as (added & -> & Hsub).
    rewrite insert_or_ignore_app, <- app_assoc. eexists. split; [reflexivity |].
    cbn [fmap list_fmap]. destruct (existsb _ rows); cbn.
    + by apply sublist_cons.
    + by apply sublist_skip.
Qed.

Lemma existsb_conflicts_app (g : Game) (rows more : list Row) :
  existsb (conflicts g) rows = true → existsb (conflicts g) (rows ++ more) = true.
Proof. intros Hc. by rewrite existsb_app, Hc. Qed.

(** After the loop every game has a row of its key. *)
Lemma fold_insert_conflicts (games_ : list Game) :
  ∀ rows g,
    g ∈ games_ ∨ existsb (conflicts g) rows = true →
    existsb (conflicts g) (fold_left insert_or_ignore games_ rows) = true.
Proof.
  induction games_ as [| x games_ IH]; intros rows g Hg; cbn [fold_left].
  - destruct Hg as [?%elem_of_nil | ?]; done.
  - apply IH. destruct Hg as [[-> | Hg]%elem_of_cons | Hg]; [right | by left | right].
    + rewrite insert_or_ignore_app. destruct (existsb (conflicts x) rows) eqn:E.
      * by rewrite app_nil_r.
      * rewrite existsb_app. cbn. by rewrite conflicts_row_of, orb_true_r.
    + rewrite insert_or_ignore_app. by apply existsb_conflicts_app.
Qed.

(** Games that all have a row of their key add nothing. *)
Lemma fold_insert_present (games_ : list Game) (rows : list Row) :
  (∀ g, g ∈ games_ → existsb (conflicts g) rows = true) →
  fold_left insert_or_ignore games_ rows = rows.
Proof.
  induction games_ as [| g games_ IH]; intros Hall; cbn [fold_left]; [done |].
  unfold insert_or_ignore at 2. rewrite Hall by left.
  apply IH. intros g' Hg'. apply Hall. by right.
Qed.

Lemma insert_or_ignore_unique (rows : list Row) (g : Game) :
  unique_keys rows → unique_keys (insert_or_ignore rows g).
Proof.
  unfold unique_keys. intros Hu. rewrite insert_or_ignore_app.
  destruct (existsb (conflicts g) rows) eqn:E; [by rewrite app_nil_r |].
  rewrite omap_app. cbn. apply NoDup_app. split_and!; [done | | apply NoDup_singleton].
  intros k Hk ->%list_elem_of_singleton.
  apply list_elem_of_omap in Hk as (r & Hr & Hkey).
  apply conflicts_key in Hkey.
  assert (Hex : existsb (conflicts g) rows = true)
    by (apply existsb_exists; exists r; by rewrite <- list_elem_of_In).
  by rewrite E in Hex.
Qed.

Lemma fold_insert_unique (games_ : list Game) :
  ∀ rows, unique_keys rows → unique_keys (fold_left insert_or_ignore games_ rows).
Proof.
  induction games_ as [| g games_ IH]; intros rows Hu; cbn [fold_left]; [done |].
  by apply IH, insert_or_ignore_unique.
Qed.

(** The two outcomes of [insertGames]. *)
Lemma insertGames_cases (faults : TxFaults) (db : sql_DB) (games_ : list Game) :
  (∃ e, insertGames faults db games_ = (Some e, db))
  ∨ (∃ rows, games db = Ok rows
             ∧ insertGames faults db games_
               = (None, {| games := Ok (fold_left insert_or_ignore games_ rows) |})).
Proof.
  unfold insertGames. destruct (begin_err faults); [left; eauto |].
  destruct (prepare_err faults); [left; eauto |].
  destruct (games db) as [rows | e]; [| left; eauto].
  destruct (exec_all faults games_ rows) as [rows' | e] eqn:E; [| left; eauto].
  destruct (commit_err faults); [left; eauto |].
  right. exists rows. split; [done |]. by rewrite (exec_all_Ok _ _ _ _ E).
Qed.

End Insert_facts.

(** X8. [insertGames] is all or nothing: when it returns an error the
    database is as it was, whichever step failed; when it returns nil the
    table holds its former rows followed by rows of the games given, in
    their order, and no former row is changed. *)
Theorem insertGames_atomic (faults : Populate.TxFaults) (db db' : sql_DB)
    (games_ : list Game) (err : option string) :
  Populate.insertGames faults db games_ = (err, db') →
  (err ≠ None → db' = db)
  ∧ (err = None →
     ∃ rows added,
       games db = Ok rows ∧ games db' = Ok (rows ++ added)
       ∧ added `sublist_of` (Populate.row_of <$> games_)).
Proof.
  intros Hins.
  destruct (Insert_facts.insertGames_cases faults db games_)
    as [[e He] | (rows & Hrows & Hok)]; rewrite Hins in *.
  - injection He as -> ->. by split.
  - injection Hok as -> ->. split; [done |]. intros _.
    destruct (Insert_facts.fold_insert_app games_ rows) as (added & -> & Hsub).
    by exists rows, added.
Qed.

Lemma insertGames_atomic_witness :
  snd (Populate.insertGames (fault_on "Other") empty_db sample_games) = empty_db.
Proof.
  refine (proj1 (insertGames_atomic (fault_on "Other") empty_db _ sample_games
                   (Some "failed to insert game Other: disk I/O error") eq_refl) _).
  discriminate.
Defined.

(** X9. [insertGames] keeps the rule of the schema: if no two rows of the
    table have the same file name and hash, none have after the call. *)
Theorem insertGames_keeps_unique (faults : Populate.TxFaults) (db db' : sql_DB)
    (games_ : list Game) (err : option string) (rows : list Row) :
  games db = Ok rows → unique_keys rows →
  Populate.insertGames faults db games_ = (err, db') →
  ∃ rows', games db' = Ok rows' ∧ unique_keys rows'.
Proof.
  intros Hrows Hu Hins.
  destruct (Insert_facts.insertGames_cases faults db games_)
    as [[e He] | (rows0 & Hrows0 & Hok)]; rewrite Hins in *.
  - injection He as -> ->. by exists rows.
  - injection Hok as -> ->. rewrite Hrows in Hrows0. injection Hrows0 as <-.
    eexists. split; [reflexivity |]. by apply Insert_facts.fold_insert_unique.
Qed.

Lemma insertGames_keeps_unique_witness :
  ∃ rows', games (snd (Populate.insertGames no_faults empty_db sample_games)) = Ok rows'
           ∧ unique_keys rows'.
Proof.
  apply (insertGames_keeps_unique no_faults empty_db _ sample_games None []).
  - reflexivity.
  - apply NoDup_nil_2.
  - reflexivity.
Defined.

(** X10. Running [insertGames] again with the same games changes nothing:
    every game finds the row of its key and is ignored. *)
Theorem insertGames_idempotent (faults faults' : Populate.TxFaults)
    (db db1 db2 : sql_DB) (games_ : list Game) (err : option string) :
  Populate.insertGames faults db games_ = (None, db1) →
  Populate.insertGames faults' db1 games_ = (err, db2) →
  db2 = db1.
Proof.
  intros H1 H2.
  destruct (Insert_facts.insertGames_cases faults db games_)
    as [[e He] | (rows & Hrows & Hok)]; rewrite H1 in *; [done |].
  injection Hok as ->.
  destruct (Insert_facts.insertGames_cases faults'
              {| games := Ok (fold_left Populate.insert_or_ignore games_ rows) |} games_)
    as [[e He] | (rows1 & Hrows1 & Hok)]; rewrite H2 in *.
  - by injection He as _ ->.
  - injection Hok as _ ->. cbn in Hrows1. injection Hrows1 as <-.
    rewrite Insert_facts.fold_insert_present; [done |].
    intros g Hg. apply Insert_facts.fold_insert_conflicts. by left.
Qed.

Lemma insertGames_idempotent_witness :
  snd (Populate.insertGames no_faults
         (snd (Populate.insertGames no_faults empty_db sample_games)) sample_games)
  = snd (Populate.insertGames no_faults empty_db sample_games).
Proof.
  apply (insertGames_idempotent no_faults no_faults empty_db _ _ sample_games None).
  - reflexivity.
  - reflexivity.
Defined.

(** X11. After a successful [insertGames] every game of the batch can be
    looked up by its hash: [FindByHash] returns a record whose hash is that
    hash up to letter case. *)
Theorem inserted_games_are_found (faults : Populate.TxFaults) (db db' : sql_DB)
    (games_ : list Game) (g : Game) :
  Populate.insertGames faults db games_ = (None, db') →
  g ∈ games_ →
  ∃ g', FindByHash (Some db') (Hash g) = Ok (Some g')
        ∧ sqlite_LOWER (Hash g') = sqlite_LOWER (Hash g).
Proof.
  intros Hins Hg.
  destruct (Insert_facts.insertGames_cases faults db games_)
    as [[e He] | (rows & Hrows & Hok)]; rewrite Hins in *; [done |].
  injection Hok as ->.
  pose proof (Insert_facts.fold_insert_conflicts games_ rows g (or_introl Hg)) as Hc.
  apply existsb_exists in Hc as (r & Hin%list_elem_of_In & Hkey%Insert_facts.conflicts_key).
  unfold row_key in Hkey. destruct (row_hash r) as [h |] eqn:Hr; [| done].
  injection Hkey as _ ->.
  destruct (select_by_hash_exists _ (Hash g) _ r Hin Hr eq_refl) as [r' Hsel].
  pose proof (select_by_hash_Some _ _ _ Hsel) as (_ & h' & Hr' & Hh').
  exists (game_of_row r' h'). unfold FindByHash. cbn [games].
  rewrite Hsel. unfold Scan. by rewrite Hr'.
Qed.

Lemma inserted_games_are_found_witness :
  ∃ g', FindByHash (Some (snd (Populate.insertGames no_faults empty_db sample_games)))
          "0123456789abcdef0123456789abcdef01234567" = Ok (Some g')
        ∧ sqlite_LOWER (Hash g') = sqlite_LOWER "0123456789abcdef0123456789abcdef01234567".
Proof.
  apply (inserted_games_are_found no_faults empty_db _ sample_games
           {| Name := "Other"; Filename := "other.bin"; Platform := "Arcade";
              Hash := "0123456789abcdef0123456789abcdef01234567" |}).
  - reflexivity.
  - apply list_elem_of_further, list_elem_of_here.
Defined.

(** ** [populateDB] *)

Module Populate_facts.
Import Populate.

Lemma group_step_lookup `{GoRuntime} (fs : FileSystem)
    (m : gmap string (list Game)) (f p : string) :
  default [] (group_step fs m f !! p)
  = default [] (m !! p)
    ++ (if String.eqb (dat_platform f) p then parsed fs f else []).
Proof.
  unfold group_step, parsed. fold (dat_platform f).
  destruct (Romnibus.parseDAT fs f (dat_platform f)) as [gs | e].
  - destruct (String.eqb_spec (dat_platform f) p) as [-> | Hne].
    + by rewrite lookup_insert_eq.
    + by rewrite lookup_insert_ne, app_nil_r.
  - by destruct (String.eqb _ _); rewrite app_nil_r.
Qed.

Lemma group_fold_lookup `{GoRuntime} (fs : FileSystem) (files : list string) (p : string) :
  ∀ m : gmap string (list Game),
    default [] (fold_left (group_step fs) files m !! p)
    = default [] (m !! p) ++ games_of_platform fs files p.
Proof.
  unfold games_of_platform.
  induction files as [| f files IH]; intros m; cbn [fold_left flat_map].
  - by rewrite app_nil_r.
  - by rewrite IH, group_step_lookup, <- app_assoc.
Qed.

Lemma group_step_keys `{GoRuntime} (fs : FileSystem)
    (m : gmap string (list Game)) (f p : string) :
  p ∈ dom (group_step fs m f)
  ↔ p ∈ dom m
    ∨ (dat_platform f = p ∧ ∃ gs, Romnibus.parseDAT fs f (dat_platform f) = Ok gs).
Proof.
  unfold group_step. fold (dat_platform f).
  destruct (Romnibus.parseDAT fs f (dat_platform f)) as [gs | e].
  - rewrite dom_insert, elem_of_union, elem_of_singleton. split.
    + intros [-> | ?]; [right | by left]. eauto.
    + intros [? | [<- _]]; [by right | by left].
  - split; [by left |]. by intros [? | [_ [? ?]]].
Qed.

Lemma group_fold_keys `{GoRuntime} (fs : FileSystem) (files : list string) (p : string) :
  ∀ m : gmap string (list Game),
    p ∈ dom (fold_left (group_step fs) files m)
    ↔ p ∈ dom m
      ∨ ∃ f, f ∈ files ∧ dat_platform f = p
             ∧ ∃ gs, Romnibus.parseDAT fs f (dat_platform f) = Ok gs.
Proof.
  induction files as [| f files IH]; intros m; cbn [fold_left].
  - split; [by left |]. by intros [? | (f & ?%elem_of_nil & _)].
  - rewrite IH, group_step_keys. split.
    + intros [[? | [Hp Hok]] | (f' & Hf' & Hrest)].
      * by left.
      * right. exists f. split; [left | done].
      * right. exists f'. split; [by right | done].
    + intros [? | (f' & [-> | Hf']%elem_of_cons & Hp & Hok)].
      * by left; left.
      * by left; right.
      * right. by exists f'.
Qed.

(** The records of a file carry the platform of the file. *)
Lemma parsed_platform `{GoRuntime} (fs : FileSystem) (f : string) (g : Game) :
  g ∈ parsed fs f → Platform g = dat_platform f.
Proof.
  unfold parsed, Romnibus.parseDAT.
  destruct (os_ReadFile fs f) as [content | e]; [| by intros ?%elem_of_nil].
  intros (m & Hm%list_elem_of_In & Hg%list_elem_of_In)%list_elem_of_In%in_flat_map.
  destruct (Romnibus_facts.romnibus_gameEntry_match (dat_platform f) content m Hm)
    as (g' & Hg' & _ & _ & _ & Hp & _).
  rewrite Hg' in Hg. by apply list_elem_of_singleton in Hg as ->.
Qed.

End Populate_facts.

(** X12. The first loop of [populateDB] files every record of every file
    that parses under the platform the name of the file gives: the entry of
    a platform holds the records of its files in the order of the files, a
    platform has an entry exactly when one of its files could be read, and
    every record of the entry carries that platform. *)
Theorem games_are_grouped_by_platform `{GoRuntime}
    (fs : FileSystem) (datFiles : list string) (platform : string) :
  default [] (Populate.group_games fs datFiles !! platform)
  = games_of_platform fs datFiles platform
  ∧ (platform ∈ dom (Populate.group_games fs datFiles)
     ↔ ∃ f content, f ∈ datFiles ∧ dat_platform f = platform
                    ∧ os_ReadFile fs f = Ok content)
  ∧ Forall (fun g => Platform g = platform)
      (default [] (Populate.group_games fs datFiles !! platform)).
Proof.
  unfold Populate.group_games.
  pose proof (Populate_facts.group_fold_lookup fs datFiles platform ∅) as Hl.
  rewrite lookup_empty in Hl. cbn in Hl. split_and!.
  - done.
  - rewrite Populate_facts.group_fold_keys, dom_empty. split.
    + intros [?%not_elem_of_empty | (f & Hf & Hp & gs & Hgs)]; [done |].
      unfold Romnibus.parseDAT in Hgs.
      destruct (os_ReadFile fs f) as [content | e] eqn:E; [| done].
      by exists f, content.
    + intros (f & content & Hf & Hp & Hread). right. exists f. split_and!; [done ..|].
      unfold Romnibus.parseDAT. rewrite Hread. eauto.
  - rewrite Hl. unfold games_of_platform. apply Forall_forall. intros g.
    intros (f & _ & Hg)%list_elem_of_In%in_flat_map.
    destruct (String.eqb_spec (dat_platform f) platform) as [<- | _]; [| done].
    apply (Populate_facts.parsed_platform fs f). by apply list_elem_of_In.
Qed.

Module Populate_lookup.
Import Populate.

Lemma insertGames_has_row (faults : TxFaults) (db db' : sql_DB)
    (gs : list Game) (g : Game) :
  insertGames faults db gs = (None, db') →
  has_row db g ∨ g ∈ gs → has_row db' g.
Proof.
  intros Hins Hg.
  destruct (Insert_facts.insertGames_cases faults db gs)
    as [[e He] | (rows & Hrows & Hok)]; rewrite Hins in *; [done |].
  injection Hok as ->. exists (fold_left insert_or_ignore gs rows). split; [done |].
  apply Insert_facts.fold_insert_conflicts.
  destruct Hg as [(rows' & Hrows' & Hc) | Hg]; [right | by left].
  rewrite Hrows in Hrows'. by injection Hrows' as <-.
Qed.

Lemma insert_all_has_row (faults : string → TxFaults) (m : gmap string (list Game))
    (g : Game) (platforms : list string) :
  ∀ db n db' n',
    insert_all faults m platforms db n = Ok (db', n') →
    has_row db g ∨ (∃ p, p ∈ platforms ∧ g ∈ default [] (m !! p)) →
    has_row db' g.
Proof.
  induction platforms as [| p platforms IH]; intros db n db' n' Hall Hg;
    cbn [insert_all] in Hall.
  - injection Hall as <- _. by destruct Hg as [? | (p & ?%elem_of_nil & _)].
  - destruct (insertGames (faults p) db (default [] (m !! p))) as [[e |] db1] eqn:Hins;
      [done |].
    apply (IH _ _ _ _ Hall).
    destruct Hg as [Hg | (q & [-> | Hq]%elem_of_cons & Hg)].
    + left. apply (insertGames_has_row _ _ _ _ _ Hins). by left.
    + left. apply (insertGames_has_row _ _ _ _ _ Hins). by right.
    + right. by exists q.
Qed.

Lemma has_row_found (db : sql_DB) (g : Game) :
  has_row db g →
  ∃ g', FindByHash (Some db) (Hash g) = Ok (Some g')
        ∧ sqlite_LOWER (Hash g') = sqlite_LOWER (Hash g).
Proof.
  intros (rows & Hrows & Hc).
  apply existsb_exists in Hc as (r & Hin%list_elem_of_In & Hkey%Insert_facts.conflicts_key).
  unfold row_key in Hkey. destruct (row_hash r) as [h |] eqn:Hr; [| done].
  injection Hkey as _ ->.
  destruct (select_by_hash_exists _ (Hash g) _ r Hin Hr eq_refl) as [r' Hsel].
  pose proof (select_by_hash_Some _ _ _ Hsel) as (_ & h' & Hr' & Hh').
  exists (game_of_row r' h'). unfold FindByHash. rewrite Hrows, Hsel.
  unfold Scan. by rewrite Hr'.
Qed.

(** After [populateDB] every record of every file has a row. *)
Lemma populateDB_has_row `{GoRuntime} (fs : FileSystem) (faults : string → TxFaults)
    (db db' : sql_DB) (datFiles : list string) (total : nat) (f : string) (g : Game) :
  populateDB fs faults db datFiles = Ok (db', total) →
  f ∈ datFiles → g ∈ parsed fs f → has_row db' g.
Proof.
  unfold populateDB. intros Hall Hf Hg.
  apply (insert_all_has_row _ _ g _ _ _ _ _ Hall). right.
  exists (dat_platform f).
  assert (Hin : g ∈ default [] (group_games fs datFiles !! dat_platform f)).
  { unfold group_games.
    pose proof (Populate_facts.group_fold_lookup fs datFiles (dat_platform f) ∅) as Hl.
    rewrite lookup_empty in Hl. cbn in Hl. rewrite Hl.
    apply list_elem_of_In, in_flat_map. exists f.
    split; [by apply list_elem_of_In |]. rewrite String.eqb_refl.
    by apply list_elem_of_In. }
  split; [| done].
  rewrite map_range_perm, elem_of_elements, elem_of_dom.
  destruct (group_games fs datFiles !! dat_platform f); [done |].
  by apply elem_of_nil in Hin.
Qed.

End Populate_lookup.

Lemma CalculateFileHash_of_bytes `{GoRuntime} (fs : FileSystem) (path data : string) :
  hashed_bytes fs path data →
  CalculateFileHash fs path = Ok (Sprintf_x (SHA1.Sum data)).
Proof.
  unfold CalculateFileHash, calculateZipHash.
  intros [[Hp%String.eqb_neq ->] | (Hp%String.eqb_eq & entry & others & -> & Hopen)];
    rewrite Hp; [done |]. by rewrite Hopen.
Qed.

(** X13. Identification, end to end: once [populateDB] has run, a ROM
    whose SHA-1 sum is listed, in any letter case, in a game block of a DAT
    file that could be read is found by [FindByHash] from the digest
    [CalculateFileHash] computes for it, be the ROM a plain file or the
    first entry of a zip archive. *)
Theorem listed_rom_is_identified `{GoRuntime}
    (fs : FileSystem) (faults : string → Populate.TxFaults) (db db' : sql_DB)
    (datFiles : list string) (total : nat)
    (dat content rom data : string) (m : list string) :
  Populate.populateDB fs faults db datFiles = Ok (db', total) →
  dat ∈ datFiles →
  os_ReadFile fs dat = Ok content →
  m ∈ Regexp.FindAllStringSubmatch Romnibus.gameBlockRegex content →
  hashed_bytes fs rom data →
  Str.map lower_ascii (nth 3 m EmptyString) = Sprintf_x (SHA1.Sum data) →
  ∃ digest g,
    CalculateFileHash fs rom = Ok digest
    ∧ FindByHash (Some db') digest = Ok (Some g)
    ∧ sqlite_LOWER (Hash g) = sqlite_LOWER digest.
Proof.
  intros Hpop Hdat Hread Hm Hrom Hlisted.
  destruct (Romnibus_facts.romnibus_gameEntry_match (dat_platform dat) content m Hm)
    as (g0 & Hg0 & _ & _ & _ & _ & _ & _ & _ & Hhash & _).
  assert (Hin : g0 ∈ parsed fs dat).
  { unfold parsed, Romnibus.parseDAT. rewrite Hread.
    apply list_elem_of_In, in_flat_map. exists m.
    split; [by apply list_elem_of_In |]. rewrite Hg0. by left. }
  pose proof (Populate_lookup.populateDB_has_row _ _ _ _ _ _ _ _ Hpop Hdat Hin) as Hrow.
  apply Populate_lookup.has_row_found in Hrow as (g & Hfind & Hg).
  rewrite Hhash, Hlisted in Hfind, Hg.
  exists (Sprintf_x (SHA1.Sum data)), g. split; [| done].
  by apply CalculateFileHash_of_bytes.
Qed.

Lemma listed_rom_is_identified_witness :
  ∃ digest g,
    @CalculateFileHash sample_runtime repo_fs "roms/game.ZIP" = Ok digest
    ∧ FindByHash
        (Some {| games := Ok [ {| row_name := "Pong"; row_filename := "pong.bin";
                                  row_platform := "Atari - 2600";
                                  row_hash := Some "a9993e364706816aba3e25717850c26c9cd0d89d" |} ] |})
        digest = Ok (Some g)
    ∧ sqlite_LOWER (Hash g) = sqlite_LOWER digest.
Proof.
  apply (@listed_rom_is_identified sample_runtime repo_fs (fun _ => no_faults)
           empty_db _ repo_files 1
           "metadat/no-intro/Atari - 2600 (v1).dat" listing_dat "roms/game.ZIP" "abc"
           [ listing_dat; "Pong"; "pong.bin";
             "A9993E364706816ABA3E25717850C26C9CD0D89D" ]).
  - vm_compute. reflexivity.
  - apply list_elem_of_here.
  - reflexivity.
  - vm_compute. apply list_elem_of_here.
  - right. split; [reflexivity |]. by exists sample_entry, [].
  - vm_compute. reflexivity.
Defined.

Module Populate_total.
Import Populate.

Lemma sum_list_fmap_perm {A} (f : A → nat) (l k : list A) :
  l ≡ₚ k → sum_list (f <$> l) = sum_list (f <$> k).
Proof. induction 1; cbn in *; lia. Qed.

Lemma sum_list_fmap_plus {A} (f g : A → nat) (l : list A) :
  sum_list ((fun x => f x + g x)%nat <$> l) = (sum_list (f <$> l) + sum_list (g <$> l))%nat.
Proof. induction l; cbn in *; lia. Qed.

(** In a list without repetition a value is counted at most once. *)
Lemma sum_list_indicator (x : string) (n : nat) (ps : list string) :
  NoDup ps →
  sum_list ((fun p => if String.eqb x p then n else 0%nat) <$> ps)
  = if decide (x ∈ ps) then n else 0%nat.
Proof.
  induction 1 as [| p ps Hp _ IH]; [done |]. cbn [fmap list_fmap sum_list].
  change (list_fmap _ _ ?g ps) with (g <$> ps). rewrite IH. unfold id.
  destruct (String.eqb_spec x p) as [-> | Hne].
  - destruct (decide (p ∈ ps)); [done |].
    destruct (decide (p ∈ p :: ps)) as [| Hn]; [lia | destruct Hn; left].
  - destruct (decide (x ∈ ps)) as [Hin | Hin].
    + destruct (decide (x ∈ p :: ps)) as [| Hn]; [lia | destruct Hn; by right].
    + destruct (decide (x ∈ p :: ps)) as [[? | ?]%elem_of_cons |]; [done | done | lia].
Qed.

Lemma platforms_total `{GoRuntime} (fs : FileSystem) (ps : list string)
    (files : list string) :
  NoDup ps →
  (∀ f, f ∈ files → parsed fs f ≠ [] → dat_platform f ∈ ps) →
  sum_list ((fun p => length (games_of_platform fs files p)) <$> ps)
  = length (flat_map (parsed fs) files).
Proof.
  intros Hnd.
  induction files as [| f files IH]; intros Hps.
  - cbn. by rewrite sum_list_fmap_const.
  - transitivity (sum_list ((fun p => (if String.eqb (dat_platform f) p
                                       then length (parsed fs f) else 0)
                                      + length (games_of_platform fs files p))%nat
                            <$> ps)).
    { f_equal. apply list_fmap_ext. intros _ p _. unfold games_of_platform.
      cbn [flat_map]. rewrite length_app. by destruct (String.eqb _ _). }
    rewrite sum_list_fmap_plus, sum_list_indicator by done.
    rewrite IH by (intros f' Hf'; apply Hps; by right).
    cbn [flat_map]. rewrite length_app. f_equal.
    destruct (decide (dat_platform f ∈ ps)) as [| Hout]; [done |].
    destruct (parsed fs f) as [| g gs] eqn:E; [done |].
    destruct Hout. apply Hps; [left | by rewrite E].
Qed.

Lemma insert_all_total (faults : string → TxFaults) (m : gmap string (list Game))
    (ps : list string) :
  ∀ db n db' n',
    insert_all faults m ps db n = Ok (db', n') →
    n' = (n + sum_list ((fun p => length (default [] (m !! p))) <$> ps))%nat
    ∧ ∀ rows, games db = Ok rows →
        ∃ added, games db' = Ok (rows ++ added) ∧ (length added ≤ n' - n)%nat.
Proof.
  induction ps as [| p ps IH]; intros db n db' n' Hall; cbn [insert_all] in Hall.
  - injection Hall as <- <-. split; [cbn; lia |]. intros rows Hrows.
    exists []. rewrite app_nil_r. split; [done | cbn; lia].
  - destruct (insertGames (faults p) db (default [] (m !! p))) as [[e |] db1] eqn:Hins;
      [done |].
    destruct (IH _ _ _ _ Hall) as [-> Hgrow]. split; [cbn; lia |].
    intros rows Hrows.
    destruct (Insert_facts.insertGames_cases (faults p) db (default [] (m !! p)))
      as [[e He] | (rows0 & Hrows0 & Hok)]; rewrite Hins in *; [done |].
    injection Hok as ->. rewrite Hrows in Hrows0. injection Hrows0 as <-.
    destruct (Insert_facts.fold_insert_app (default [] (m !! p)) rows)
      as (added1 & Hadd1 & Hsub%sublist_length).
    rewrite length_fmap in Hsub.
    destruct (Hgrow (rows ++ added1)) as (added2 & Hrows2 & Hlen2);
      [cbn; by rewrite Hadd1 |].
    exists (added1 ++ added2). rewrite app_assoc. split; [done |].
    rewrite length_app. lia.
Qed.

End Populate_total.

(** X14. When [populateDB] completes, its total is the number of records
    parsed from the files that could be read; the table keeps its former
    rows and gains at most that many (records of a key already stored add
    none). *)
Theorem populateDB_total `{GoRuntime}
    (fs : FileSystem) (faults : string → Populate.TxFaults) (db db' : sql_DB)
    (datFiles : list string) (total : nat) :
  Populate.populateDB fs faults db datFiles = Ok (db', total) →
  total = length (flat_map (parsed fs) datFiles)
  ∧ ∀ rows, games db = Ok rows →
      ∃ added, games db' = Ok (rows ++ added) ∧ (length added ≤ total)%nat.
Proof.
  unfold Populate.populateDB. intros Hall.
  destruct (Populate_total.insert_all_total _ _ _ _ _ _ _ Hall) as [-> Hgrow].
  assert (Hsum : sum_list ((fun p => length (default []
                   (Populate.group_games fs datFiles !! p)))
                   <$> map_range (dom (Populate.group_games fs datFiles)))
                 = length (flat_map (parsed fs) datFiles)).
  { rewrite (Populate_total.sum_list_fmap_perm _ _ _ (map_range_perm _)).
    rewrite <- (Populate_total.platforms_total fs
                  (elements (dom (Populate.group_games fs datFiles))) datFiles).
    - f_equal. apply list_fmap_ext. intros _ p _. unfold Populate.group_games.
      pose proof (Populate_facts.group_fold_lookup fs datFiles p ∅) as Hl.
      rewrite lookup_empty in Hl. by rewrite Hl.
    - apply NoDup_elements.
    - intros f Hf Hne. rewrite elem_of_elements. unfold Populate.group_games.
      apply Populate_facts.group_fold_keys. right. exists f. split_and!; [done ..|].
      unfold parsed in Hne.
      destruct (Romnibus.parseDAT fs f (dat_platform f)) as [gs | e]; [eauto | done]. }
  rewrite Hsum in *. split; [done |]. intros rows Hrows.
  destruct (Hgrow rows Hrows) as (added & Hrows' & Hlen).
  exists added. split; [done | lia].
Qed.

Lemma populateDB_total_witness :
  (1 = length (flat_map (@parsed sample_runtime repo_fs) repo_files))%nat.
Proof.
  refine (proj1 (@populateDB_total sample_runtime repo_fs (fun _ => no_faults)
                   empty_db
                   {| games := Ok [ {| row_name := "Pong"; row_filename := "pong.bin";
                                      row_platform := "Atari - 2600";
                                      row_hash := Some "a9993e364706816aba3e25717850c26c9cd0d89d" |} ] |}
                   repo_files 1 _)).
  vm_compute. reflexivity.
Defined.

(** ** The JSON importer: ROM lists and merging *)

Module First_occurrences.

Section keyed.
Context {A K : Type} `{EqDecision K} (key : A → K).

Lemma sublist (l : list A) : first_occurrences key l `sublist_of` l.
Proof.
  induction l as [| x l IH]; [done |]. cbn [first_occurrences].
  apply sublist_skip. by etrans; [apply sublist_filter |].
Qed.

Lemma keys_NoDup (l : list A) : NoDup (key <$> first_occurrences key l).
Proof.
  induction l as [| x l IH]; [apply NoDup_nil_2 |]. cbn [first_occurrences].
  rewrite fmap_cons. apply NoDup_cons_2.
  - intros (y & Hy & [Hne _]%list_elem_of_filter)%list_elem_of_fmap. by destruct Hne.
  - eapply sublist_NoDup; [exact IH |]. by apply fmap_sublist, sublist_filter.
Qed.

(** Every element has a kept element of its key. *)
Lemma covers (l : list A) (y : A) :
  y ∈ l → ∃ y', y' ∈ first_occurrences key l ∧ key y' = key y.
Proof.
  induction l as [| x l IH]; [by intros ?%elem_of_nil |]. cbn [first_occurrences].
  intros [-> | Hy]%elem_of_cons; [exists x; split; [left | done] |].
  destruct (decide (key y = key x)) as [E | Hne].
  - exists x. split; [left | done].
  - destruct (IH Hy) as (y' & Hy' & E). exists y'. split; [| done].
    right. apply list_elem_of_filter. split; [congruence | done].
Qed.

(** A list without two elements of the same key is left as it is. *)
Lemma fixed (l : list A) : NoDup (key <$> l) → first_occurrences key l = l.
Proof.
  induction l as [| x l IH]; [done |]. rewrite fmap_cons.
  intros [Hx Hl]%NoDup_cons. cbn [first_occurrences]. rewrite IH by done. f_equal.
  apply Dedup_facts.filter_all. intros y Hy E. apply Hx.
  rewrite <- E. by apply list_elem_of_fmap_2.
Qed.

Lemma idempotent (l : list A) :
  first_occurrences key (first_occurrences key l) = first_occurrences key l.
Proof. apply fixed, keys_NoDup. Qed.

(** Appending: of the second list, the elements whose key the first list
    has are dropped. *)
Lemma append (l1 l2 : list A) :
  first_occurrences key (l1 ++ l2)
  = first_occurrences key l1
    ++ filter (fun y => key y ∉ key <$> l1) (first_occurrences key l2).
Proof.
  induction l1 as [| x l1 IH].
  - cbn. symmetry. apply Dedup_facts.filter_all. intros y _ ?%elem_of_nil. done.
  - cbn [app first_occurrences]. rewrite IH, filter_app. cbn [app]. do 2 f_equal.
    rewrite list_filter_filter. apply list_filter_iff. intros y.
    rewrite fmap_cons, not_elem_of_cons. tauto.
Qed.

End keyed.

End First_occurrences.

(** X15. Every ROM of every record [ProcessFile] returns has at least one
    digest: a descriptor without [Crc], [Md5], [Sha1] and [Sha256] is
    left out. *)
Theorem roms_have_a_digest `{GoRuntime} `{JsonImport.Decoder}
    (fs : FileSystem) (filename : string) (games_ : list JsonImport.GameData) :
  JsonImport.ProcessFile fs filename = Ok games_ →
  ∀ g rom, g ∈ games_ → rom ∈ JsonImport.ROMs g → has_digest rom.
Proof.
  unfold JsonImport.ProcessFile.
  destruct (os_ReadFile fs filename) as [content | e]; [| done].
  destruct (JsonImport.json_Unmarshal content) as [data | e]; [| done].
  intros [= <-] g rom Hg Hrom.
  assert (Hroms : JsonImport.ROMs g
                  = JsonImport.Deduplicate
                      (flat_map JsonImport.attr_roms (JsonImport.Attributes data))).
  { rewrite Json_facts.process_spec in Hg.
    destruct (_ <? _)%nat.
    - by apply list_elem_of_fmap in Hg as (plat & -> & _).
    - by apply list_elem_of_singleton in Hg as ->. }
  rewrite Hroms, Dedup_facts.Deduplicate_spec in Hrom.
  apply Dedup_facts.first_occurrences_subset in Hrom.
  apply list_elem_of_In, in_flat_map in Hrom as (attr & _ & Hrom).
  assert (Hkeep : ∀ r, In rom (JsonImport.keep_rom r) → has_digest rom).
  { intros r. unfold JsonImport.keep_rom, has_digest.
    destruct (_ || _) eqn:E; [| done]. intros [<- | []].
    rewrite !orb_true_iff, !Json_facts.nonempty_spec in E. tauto. }
  unfold JsonImport.attr_roms in Hrom.
  destruct (String.eqb _ _); [| done].
  destruct (JsonImport.Value attr) as [[| | | | items | members] |]; try done.
  - apply in_flat_map in Hrom as (item & _ & Hrom).
    destruct item; try done. by eapply Hkeep.
  - by eapply Hkeep.
Qed.

Lemma roms_have_a_digest_witness :
  has_digest {| JsonImport.rom_Name := "pong.bin"; JsonImport.Size := 2048;
                JsonImport.Crc := ""; JsonImport.Md5 := "";
                JsonImport.Sha1 := "a9993e364706816aba3e25717850c26c9cd0d89d";
                JsonImport.Sha256 := "" |}.
Proof.
  refine (@roms_have_a_digest sample_runtime late_decoder json_fs "json/pong.json"
            _ eq_refl _ _ _ _).
  - vm_compute. apply list_elem_of_here.
  - vm_compute. apply list_elem_of_here.
Defined.

(** X16. [Deduplicate] and [MergeAndDeduplicate] only drop elements: the
    result is the input with some elements left out, in the same order; no
    two elements of the result have the same key, and every element of the
    input has an element of its key in the result. *)
Theorem dedup_keeps_one_of_each_key :
  (∀ roms : list JsonImport.ROM,
     JsonImport.Deduplicate roms `sublist_of` roms
     ∧ NoDup (JsonImport.rom_key <$> JsonImport.Deduplicate roms)
     ∧ ∀ r, r ∈ roms →
         ∃ r', r' ∈ JsonImport.Deduplicate roms
               ∧ JsonImport.rom_key r' = JsonImport.rom_key r)
  ∧ (∀ games_ : list JsonImport.GameData,
       JsonImport.MergeAndDeduplicate games_ `sublist_of` games_
       ∧ NoDup (JsonImport.game_key <$> JsonImport.MergeAndDeduplicate games_)
       ∧ ∀ g, g ∈ games_ →
           ∃ g', g' ∈ JsonImport.MergeAndDeduplicate games_
                 ∧ JsonImport.game_key g' = JsonImport.game_key g).
Proof.
  split.
  - intros roms. rewrite Dedup_facts.Deduplicate_spec. split_and!.
    + apply First_occurrences.sublist.
    + apply First_occurrences.keys_NoDup.
    + apply First_occurrences.covers.
  - intros games_. rewrite Dedup_facts.MergeAndDeduplicate_spec. split_and!.
    + apply First_occurrences.sublist.
    + apply First_occurrences.keys_NoDup.
    + apply First_occurrences.covers.
Qed.

(** X17. De-duplicating twice is de-duplicating once, and a list whose
    keys are all different is returned as it is. *)
Theorem dedup_idempotent :
  (∀ roms : list JsonImport.ROM,
     JsonImport.Deduplicate (JsonImport.Deduplicate roms) = JsonImport.Deduplicate roms
     ∧ (NoDup (JsonImport.rom_key <$> roms) → JsonImport.Deduplicate roms = roms))
  ∧ (∀ games_ : list JsonImport.GameData,
       JsonImport.MergeAndDeduplicate (JsonImport.MergeAndDeduplicate games_)
       = JsonImport.MergeAndDeduplicate games_
       ∧ (NoDup (JsonImport.game_key <$> games_) →
          JsonImport.MergeAndDeduplicate games_ = games_)).
Proof.
  split.
  - intros roms. rewrite !Dedup_facts.Deduplicate_spec. split.
    + apply First_occurrences.idempotent.
    + apply First_occurrences.fixed.
  - intros games_. rewrite !Dedup_facts.MergeAndDeduplicate_spec. split.
    + apply First_occurrences.idempotent.
    + apply First_occurrences.fixed.
Qed.

Lemma dedup_idempotent_witness :
  JsonImport.MergeAndDeduplicate [game_a] = [game_a].
Proof.
  apply (proj2 dedup_idempotent [game_a]). apply NoDup_singleton.
Defined.

Lemma dedup_keeps_one_of_each_key_witness :
  ∃ r', r' ∈ JsonImport.Deduplicate [rom_a; rom_b]
        ∧ JsonImport.rom_key r' = JsonImport.rom_key rom_b.
Proof.
  apply (proj2 (proj2 (proj1 dedup_keeps_one_of_each_key [rom_a; rom_b])) rom_b).
  apply list_elem_of_further, list_elem_of_here.
Defined.

Module JsonMain_facts.
Import JsonImport JsonMain.





(** The records of one document have different keys. *)
Lemma process_keys_NoDup `{GoRuntime} (filename : string) (data : GameFile) :
  NoDup (game_key <$> process filename data).
Proof.
  rewrite Json_facts.process_spec. cbv zeta.
  destruct (_ <? _)%nat; [| apply NoDup_singleton].
  rewrite <- list_fmap_compose. apply NoDup_fmap_2.
  - intros p q E. unfold game_key, with_Platform, compose in E. cbn in E.
    by do 4 apply String.app_inj in E.
  - rewrite map_range_perm. apply NoDup_elements.
Qed.

End JsonMain_facts.





(** X20. [ProcessFile] fails only when the file cannot be read or decoded;
    otherwise it returns as many records as there are distinct platforms,
    and one record when there are none.  With at most one distinct
    platform the record carries the platform of the first signature
    descriptor, empty or not: a platform that only a later descriptor
    names is not used. *)
Theorem ProcessFile_record_count `{GoRuntime} `{JsonImport.Decoder}
    (fs : FileSystem) (filename content : string) (data : JsonImport.GameFile) :
  os_ReadFile fs filename = Ok content →
  JsonImport.json_Unmarshal content = Ok data →
  ∃ games_,
    JsonImport.ProcessFile fs filename = Ok games_
    ∧ length games_ = Nat.max 1 (length (distinct_platforms data))
    ∧ ((length (distinct_platforms data) ≤ 1)%nat →
       JsonImport.Platform <$> games_ = [first_platform data]).
Proof.
  intros Hread Hjson. unfold JsonImport.ProcessFile.
  rewrite Hread, Hjson, Json_facts.process_spec. cbv zeta.
  eexists. split; [reflexivity |].
  destruct (Nat.ltb_spec 1 (length (distinct_platforms data))) as [Hmany | Hfew].
  - split; [| lia]. rewrite length_map, (Json_facts.range_platforms data). lia.
  - split; [cbn; lia | done].
Qed.

Lemma ProcessFile_record_count_witness :
  ∃ games_,
    @JsonImport.ProcessFile sample_runtime late_decoder json_fs "json/pong.json"
    = Ok games_
    ∧ JsonImport.Platform <$> games_ = [EmptyString].
Proof.
  destruct (@ProcessFile_record_count sample_runtime late_decoder json_fs
              "json/pong.json" "two platforms" late_platform_doc eq_refl eq_refl)
    as (games_ & Hok & _ & Hone).
  exists games_. split; [exact Hok |]. apply Hone. vm_compute. lia.
Defined.

(** X21. Merging never drops a record of a single document: the records
    [ProcessFile] returns for one file have different keys. *)
Theorem merge_keeps_one_file `{GoRuntime} `{JsonImport.Decoder}
    (fs : FileSystem) (filename : string) (games_ : list JsonImport.GameData) :
  JsonImport.ProcessFile fs filename = Ok games_ →
  JsonImport.MergeAndDeduplicate games_ = games_.
Proof.
  unfold JsonImport.ProcessFile.
  destruct (os_ReadFile fs filename) as [content | e]; [| done].
  destruct (JsonImport.json_Unmarshal content) as [data | e]; [| done].
  intros [= <-]. rewrite Dedup_facts.MergeAndDeduplicate_spec.
  apply First_occurrences.fixed, JsonMain_facts.process_keys_NoDup.
Qed.

Lemma merge_keeps_one_file_witness :
  length (JsonImport.MergeAndDeduplicate
            (@JsonImport.process sample_runtime "json/pong.json" two_platform_doc))
  = 2%nat.
Proof.
  rewrite (@merge_keeps_one_file sample_runtime sample_decoder json_fs
             "json/pong.json" _ eq_refl).
  reflexivity.
Defined.

(** ** [parseFilename]: the shape of a platform *)

Module Platform_facts.
Import Trim_facts.

Lemma all_append (p : ascii → bool) (a b : string) :
  Str.all p (a +:+ b) = Str.all p a && Str.all p b.
Proof.
  induction a as [| c a IH]; [done |].
  rewrite Str_facts.append_cons. cbn [Str.all]. by rewrite IH, andb_assoc.
Qed.

Lemma IndexByte_all_non (c : ascii) (s : string) :
  strings_IndexByte s c = -1 → Str.all (Regexp.non c) s = true.
Proof.
  induction s as [| a s IH]; [done |]. cbn [Str.all strings_IndexByte]. unfold Regexp.non at 1.
  destruct (Ascii.eqb a c); [done |].
  pose proof (Filename_facts.IndexByte_ge s c).
  destruct (Z.eqb_spec (strings_IndexByte s c) (-1)) as [E |]; [| lia].
  intros _. by rewrite (IH E).
Qed.

Lemma TrimLeftSpace_head (s : string) : space_head s = false → TrimLeftSpace s = s.
Proof.
  destruct s as [| c1 [| c2 [| c3 t3]]]; cbn; try done.
  - by intros ->%orb_false_elim%proj1.
  - intros [-> [-> _]%orb_false_elim]%orb_false_elim. done.
  - intros [-> [-> ->]%orb_false_elim]%orb_false_elim. done.
Qed.

Lemma TrimLeftSpace_length (s : string) :
  (String.length (TrimLeftSpace s) ≤ String.length s)%nat.
Proof.
  destruct (TrimLeftSpace_spec (String.length s) s) as [(b & _ & E) _]; [done |].
  rewrite E at 2. rewrite Str_facts.length_append. lia.
Qed.

Lemma TrimLeftSpace_fixed_head (s : string) : TrimLeftSpace s = s → space_head s = false.
Proof.
  intros Hs. apply (f_equal String.length) in Hs.
  destruct s as [| c1 t1]; [done |]. cbn [TrimLeftSpace space_head] in *.
  destruct (asciiSpace c1).
  { pose proof (TrimLeftSpace_length t1). cbn in Hs. lia. }
  destruct t1 as [| c2 t2]; [done |].
  destruct (space2 c1 c2).
  { pose proof (TrimLeftSpace_length t2). cbn in Hs. lia. }
  destruct t2 as [| c3 t3]; [done |].
  destruct (space3 c1 c2 c3); [| done].
  pose proof (TrimLeftSpace_length t3). cbn in Hs. lia.
Qed.

(** A string that does not begin with white space has no prefix that
    does. *)
Lemma space_head_prefix (v w : string) :
  space_head (v +:+ w) = false → space_head v = false.
Proof.
  destruct v as [| c1 [| c2 [| c3 v]]]; [done | | |]; rewrite ?Str_facts.append_cons;
    cbn [space_head append].
  - destruct w; cbn; [done |]. by intros [-> _]%orb_false_elim.
  - change (EmptyString +:+ w) with w.
    destruct w; cbn; [done |]. by intros [-> [-> _]%orb_false_elim]%orb_false_elim.
  - done.
Qed.

(** The scan from the end keeps a suffix of the reversed string, which a
    second scan leaves alone. *)
Lemma TrimRightSpace_rev_spec (n : nat) :
  ∀ r, (String.length r ≤ n)%nat →
       (∃ b, r = b +:+ TrimRightSpace_rev r)
       ∧ TrimRightSpace_rev (TrimRightSpace_rev r) = TrimRightSpace_rev r.
Proof.
  induction n as [| n IH]; intros r Hn.
  { destruct r; [| cbn in Hn; lia]. split; [by exists EmptyString | done]. }
  assert (Hkeep : ∀ u, TrimRightSpace_rev u = u →
            (∃ b, u = b +:+ u) ∧ TrimRightSpace_rev u = u).
  { intros u Hu. split; [by exists EmptyString | done]. }
  destruct r as [| c1 t1]; [by apply (Hkeep EmptyString) |].
  cbn [String.length] in Hn.
  cbn [TrimRightSpace_rev]. destruct (asciiSpace c1) eqn:E1.
  { destruct (IH t1) as [(b & Ht) Hi]; [lia |]. split; [| done].
    exists (String c1 b). by rewrite Str_facts.append_cons, <- Ht. }
  destruct t1 as [| c2 t2].
  { apply Hkeep. cbn [TrimRightSpace_rev]. by rewrite E1. }
  cbn [String.length] in Hn. destruct (space2 c2 c1) eqn:E2.
  { destruct (IH t2) as [(b & Ht) Hi]; [lia |]. split; [| done].
    exists (String c1 (String c2 b)). by rewrite !Str_facts.append_cons, <- Ht. }
  destruct t2 as [| c3 t3].
  { apply Hkeep. cbn [TrimRightSpace_rev]. by rewrite E1, E2. }
  cbn [String.length] in Hn. destruct (space3 c3 c2 c1) eqn:E3.
  { destruct (IH t3) as [(b & Ht) Hi]; [lia |]. split; [| done].
    exists (String c1 (String c2 (String c3 b))).
    by rewrite !Str_facts.append_cons, <- Ht. }
  apply Hkeep. cbn [TrimRightSpace_rev]. by rewrite E1, E2, E3.
Qed.

(** [strings.TrimSpace] returns a part of its argument, between what it
    removes on either side. *)
Lemma TrimSpace_split (s : string) :
  ∃ a b, s = a +:+ strings_TrimSpace s +:+ b.
Proof.
  unfold strings_TrimSpace, TrimRightSpace.
  destruct (TrimLeftSpace_spec (String.length s) s) as [(a & _ & Ha) _]; [done |].
  destruct (TrimRightSpace_rev_spec _ (String.rev (TrimLeftSpace s)) (le_n _))
    as [(b & Hb) _].
  exists a, (String.rev b). rewrite <- rev_append, <- Hb, rev_involutive. exact Ha.
Qed.

(** Trimming what is trimmed changes nothing. *)
Lemma TrimSpace_idemp (s : string) :
  strings_TrimSpace (strings_TrimSpace s) = strings_TrimSpace s.
Proof.
  destruct (TrimLeftSpace_spec (String.length s) s) as [_ Hfix]; [done |].
  unfold strings_TrimSpace. set (u := TrimLeftSpace s) in *.
  destruct (TrimRightSpace_rev_spec _ (String.rev u) (le_n _)) as [(b & Hb) Hi].
  assert (Hv : TrimLeftSpace (TrimRightSpace u) = TrimRightSpace u).
  { apply TrimLeftSpace_head, (space_head_prefix _ (String.rev b)).
    unfold TrimRightSpace. rewrite <- rev_append, <- Hb, rev_involutive.
    by apply TrimLeftSpace_fixed_head. }
  rewrite Hv. unfold TrimRightSpace. by rewrite rev_involutive, Hi.
Qed.

Lemma take_split (n : nat) (s : string) : ∃ b, s = Str.take n s +:+ b.
Proof. exists (Str.drop n s). by rewrite Filename_facts.take_drop. Qed.

End Platform_facts.

(** X22. The platform [parseFilename] returns has no white space to trim
    at either end and holds no opening parenthesis. *)
Theorem platform_is_trimmed (filename : string) :
  strings_TrimSpace (parseFilename filename) = parseFilename filename
  ∧ strings_IndexByte (parseFilename filename) "(" = -1.
Proof.
  assert (Hpart : ∀ s, Str.all (Regexp.non "(") s = true →
                       strings_IndexByte (strings_TrimSpace s) "(" = -1).
  { intros s Hs. destruct (Platform_facts.TrimSpace_split s) as (a & b & E).
    rewrite E, !Platform_facts.all_append in Hs.
    apply andb_true_iff in Hs as [_ [Hs _]%andb_true_iff].
    by apply Regexp_occurs.all_non_IndexByte. }
  destruct (Z.eq_dec (strings_IndexByte filename "(") (-1)) as [Hno | Hyes].
  - rewrite (Filename_facts.parseFilename_no_paren _ Hno).
    split; [apply Platform_facts.TrimSpace_idemp |]. apply Hpart.
    apply Platform_facts.IndexByte_all_non in Hno. unfold strings_TrimSuffix.
    destruct (strings_HasSuffix filename ".dat"); [| done].
    destruct (Platform_facts.take_split (String.length filename - String.length ".dat")
                filename) as [b Hb].
    rewrite Hb, Platform_facts.all_append in Hno.
    by apply andb_true_iff in Hno as [? _].
  - destruct (Filename_facts.IndexByte_split _ _ Hyes) as (pre & rest & -> & Hpre).
    rewrite (Filename_facts.parseFilename_paren _ _ Hpre).
    split; [apply Platform_facts.TrimSpace_idemp |].
    by apply Hpart, Platform_facts.IndexByte_all_non.
Qed.

(** ** The walk of [downloadDATFiles] and the platform of a file *)

Module Walk_facts.
Import Trim_facts.

Lemma map_append (f : ascii → ascii) (a b : string) :
  Str.map f (a +:+ b) = Str.map f a +:+ Str.map f b.
Proof.
  induction a as [| c a IH]; [done |].
  rewrite Str_facts.append_cons. cbn [Str.map]. by rewrite IH, Str_facts.append_cons.
Qed.

Lemma drop_suffix (stem suf : string) :
  Str.drop (String.length (stem +:+ suf) - String.length suf) (stem +:+ suf) = suf.
Proof.
  rewrite Str_facts.length_append.
  replace (String.length stem + String.length suf - String.length suf)%nat
    with (String.length stem) by lia.
  apply Filename_facts.drop_append.
Qed.

Lemma HasSuffix_append (stem suf : string) :
  strings_HasSuffix (stem +:+ suf) suf = true.
Proof.
  unfold strings_HasSuffix. rewrite drop_suffix, String.eqb_refl, andb_true_r.
  apply Nat.leb_le. rewrite Str_facts.length_append. lia.
Qed.

(** A suffix of the same length that is another string is not trimmed. *)
Lemma TrimSuffix_other (stem suf suf' : string) :
  String.length suf = String.length suf' → suf ≠ suf' →
  strings_TrimSuffix (stem +:+ suf) suf' = stem +:+ suf.
Proof.
  intros Hlen Hne. unfold strings_TrimSuffix, strings_HasSuffix.
  rewrite <- Hlen, drop_suffix.
  destruct (String.eqb_spec suf suf') as [E | _]; [done |]. by rewrite andb_false_r.
Qed.

Lemma all_rev (p : ascii → bool) (s : string) :
  Str.all p (String.rev s) = Str.all p s.
Proof.
  induction s as [| c s IH]; [done |].
  rewrite rev_cons, Platform_facts.all_append, IH. cbn [Str.all].
  by rewrite andb_true_r, andb_comm.
Qed.

Lemma strip_slashes_keep (r : string) :
  r ≠ EmptyString → Str.all (Regexp.non "/") r = true → strip_slashes r = r.
Proof.
  destruct r as [| c r]; [done |]. intros _. cbn [Str.all strip_slashes].
  unfold Regexp.non at 1. by destruct (Ascii.eqb c "/").
Qed.

Lemma last_element_stops (r rest acc : string) :
  Str.all (Regexp.non "/") r = true →
  last_element (r +:+ String "/" rest) acc = String.rev r +:+ acc.
Proof.
  revert acc. induction r as [| c r IH]; intros acc.
  { intros _. done. }
  cbn [Str.all]. unfold Regexp.non at 1. intros [Hc Hr]%andb_true_iff.
  apply negb_true_iff in Hc. rewrite Str_facts.append_cons. cbn [last_element].
  rewrite Hc, (IH _ Hr), rev_cons, Str_facts.append_assoc. done.
Qed.

(** [filepath.Base] of a file in a directory is the file's own name. *)
Lemma Base_join (dir name : string) :
  name ≠ EmptyString → strings_IndexByte name "/" = -1 →
  filepath_Base (dir +:+ "/" +:+ name) = name.
Proof.
  intros Hne Hno. apply Platform_facts.IndexByte_all_non in Hno.
  unfold filepath_Base.
  assert (Hpath : String.eqb (dir +:+ "/" +:+ name) EmptyString = false).
  { apply String.eqb_neq. by destruct dir. }
  rewrite Hpath, rev_append, rev_append.
  assert (Hrev : String.rev name ≠ EmptyString).
  { intros E. apply Hne. by rewrite <- (rev_involutive name), E. }
  assert (Hall : Str.all (Regexp.non "/") (String.rev name) = true)
    by by rewrite all_rev.
  change (String.rev "/") with (String "/"%char EmptyString).
  rewrite Str_facts.append_assoc, Str_facts.append_cons.
  change (EmptyString +:+ String.rev dir) with (String.rev dir).
  assert (Hstrip : strip_slashes (String.rev name +:+ String "/" (String.rev dir))
                   = String.rev name +:+ String "/" (String.rev dir)).
  { destruct (String.rev name) as [| c r]; [done |].
    rewrite Str_facts.append_cons. cbn [Str.all] in Hall. cbn [strip_slashes].
    apply andb_true_iff in Hall as [Hc _]. unfold Regexp.non in Hc.
    by destruct (Ascii.eqb c "/"). }
  rewrite Hstrip, (last_element_stops _ _ _ Hall), rev_involutive,
    Str_facts.append_nil_r.
  destruct (String.eqb_spec name EmptyString); done.
Qed.

End Walk_facts.

(** X23. The walk of [downloadDATFiles] takes a file for a DAT file
    whatever the case of its suffix, but [parseFilename] removes the
    suffix in lower case only: for a name of ASCII characters without a
    parenthesis whose suffix is [.dat] in another case, the file is taken
    and its platform is the whole name, suffix included, less the white
    space around it. *)
Theorem mixed_case_suffix_is_kept `{GoRuntime} (stem suf : string)
    (Hascii : Str.all is_ascii (stem +:+ suf) = true)
    (Hsuf : Str.map lower_ascii suf = ".dat")
    (Hcase : suf ≠ ".dat")
    (Hparen : strings_IndexByte (stem +:+ suf) "(" = -1) :
  Populate.is_dat_file false (stem +:+ suf) = true
  ∧ parseFilename (stem +:+ suf) = strings_TrimSpace (stem +:+ suf).
Proof.
  split.
  - unfold Populate.is_dat_file, strings_ToLower. rewrite Hascii.
    rewrite Walk_facts.map_append, Hsuf. apply Walk_facts.HasSuffix_append.
  - rewrite (Filename_facts.parseFilename_no_paren _ Hparen).
    rewrite Walk_facts.TrimSuffix_other; [done | | done].
    by rewrite <- (Str_facts.length_map lower_ascii suf), Hsuf.
Qed.

Lemma mixed_case_suffix_is_kept_witness :
  @Populate.is_dat_file sample_runtime false "Sega - Mega Drive.DAT" = true
  ∧ parseFilename "Sega - Mega Drive.DAT" = "Sega - Mega Drive.DAT".
Proof.
  exact (@mixed_case_suffix_is_kept sample_runtime "Sega - Mega Drive" ".DAT"
           eq_refl eq_refl ltac:(discriminate) eq_refl).
Defined.

(** X24. The platform [populateDB] gives a DAT file depends on the
    file's own name only, not on the directory the walk found it in: two
    files of one name in two directories feed the same platform. *)
Theorem platform_ignores_directory (dir name : string)
    (Hname : name ≠ EmptyString)
    (Hslash : strings_IndexByte name "/" = -1) :
  dat_platform (dir +:+ "/" +:+ name) = parseFilename name.
Proof. unfold dat_platform. by rewrite Walk_facts.Base_join. Qed.

Lemma platform_ignores_directory_witness :
  dat_platform "libretro-database/metadat/no-intro/Atari - 2600.dat" = "Atari - 2600".
Proof.
  exact (platform_ignores_directory "libretro-database/metadat/no-intro"
           "Atari - 2600.dat" ltac:(discriminate) eq_refl).
Defined.
